(** * ArgParser: positional command arguments for an Eris bot

    A shallow embedding of [src/ArgParser.js] and the properties of its
    operations.  JavaScript strings are sequences of UTF-16 code units, so a
    string is a [list N]; array and string indices are JavaScript integers,
    modelled as [Z] with the relative-index arithmetic of the language
    written out. *)

From Stdlib Require Import Ascii String.
From Stdlib Require Import List ZArith NArith Bool Lia.
Import ListNotations.

Set Implicit Arguments.

(** ** JavaScript strings *)

Module JS.

Definition code_unit := N.
Definition jsstring := list code_unit.

(** The code units of an ASCII literal. *)
Definition lit (s : string) : jsstring :=
  map N_of_ascii (list_ascii_of_string s).

Definition LT : code_unit := 60%N.      (* < *)
Definition GT : code_unit := 62%N.      (* > *)
Definition AT : code_unit := 64%N.      (* @ *)
Definition BANG : code_unit := 33%N.    (* ! *)
Definition HASH : code_unit := 35%N.    (* # *)
Definition AMP : code_unit := 38%N.     (* & *)
Definition DOLLAR : code_unit := 36%N.  (* $ *)
Definition BACKTICK : code_unit := 96%N.
Definition QUOTE : code_unit := 39%N.
Definition SPACE : code_unit := 32%N.
Definition ZWSP : code_unit := 8203%N.  (* U+200B, zero width space *)

(** The character class [0-9]. *)
Definition isDigit (c : code_unit) : bool :=
  (48 <=? c)%N && (c <=? 57)%N.

Fixpoint string_eqb (a b : jsstring) : bool :=
  match a, b with
  | [], [] => true
  | x :: a', y :: b' => (x =? y)%N && string_eqb a' b'
  | _, _ => false
  end.

(** ToBoolean on a value that is a string or [undefined]. *)
Definition truthy (v : option jsstring) : bool :=
  match v with
  | Some (_ :: _) => true
  | _ => false
  end.

(** Relative index of [Array.prototype.slice], [splice] and
    [String.prototype.slice]: a negative index counts from the end, and the
    result is clamped to [0 .. len]. *)
Definition relIndex (len i : Z) : Z :=
  if (i <? 0)%Z then Z.max (len + i) 0 else Z.min i len.

Definition slice {A} (l : list A) (start stop : Z) : list A :=
  let len := Z.of_nat (length l) in
  let k := relIndex len start in
  let final := relIndex len stop in
  firstn (Z.to_nat (final - k)) (skipn (Z.to_nat k) l).

(** [splice start deleteCount]: the removed elements and the array that is
    left.  [deleteCount] omitted removes up to the end. *)
Definition splice {A} (l : list A) (start : Z) (deleteCount : option Z)
  : list A * list A :=
  let len := Z.of_nat (length l) in
  let k := relIndex len start in
  let dc := match deleteCount with
            | None => (len - k)%Z
            | Some d => Z.min (Z.max d 0) (len - k)
            end in
  (firstn (Z.to_nat dc) (skipn (Z.to_nat k) l),
   firstn (Z.to_nat k) l ++ skipn (Z.to_nat k + Z.to_nat dc) l).

(** [shift]: the first element, [undefined] on an empty array. *)
Definition shift {A} (l : list A) : option A * list A :=
  match l with
  | [] => (None, [])
  | x :: l' => (Some x, l')
  end.

Fixpoint join (sep : jsstring) (l : list jsstring) : jsstring :=
  match l with
  | [] => []
  | [x] => x
  | x :: l' => x ++ sep ++ join sep l'
  end.

Fixpoint prefixb (p s : jsstring) : bool :=
  match p, s with
  | [], _ => true
  | x :: p', y :: s' => (x =? y)%N && prefixb p' s'
  | _ :: _, [] => false
  end.

(** [indexOf]: position of the first occurrence of [p] in [s]. *)
Fixpoint indexOfFrom (i : nat) (p s : jsstring) : option nat :=
  if prefixb p s then Some i
  else match s with
       | [] => None
       | _ :: s' => indexOfFrom (S i) p s'
       end.

Definition indexOf (p s : jsstring) : option nat := indexOfFrom 0 p s.

(** GetSubstitution for a string pattern: there are no capture groups, so
    the only replacement patterns are [$$], [$&], [$`] and [$']; every other
    [$] stands for itself. *)
Fixpoint getSubstitution (matched before after repl : jsstring) : jsstring :=
  match repl with
  | [] => []
  | c :: r =>
      if (c =? DOLLAR)%N then
        match r with
        | [] => [c]
        | d :: r' =>
            if (d =? DOLLAR)%N then
              DOLLAR :: getSubstitution matched before after r'
            else if (d =? AMP)%N then
              matched ++ getSubstitution matched before after r'
            else if (d =? BACKTICK)%N then
              before ++ getSubstitution matched before after r'
            else if (d =? QUOTE)%N then
              after ++ getSubstitution matched before after r'
            else c :: getSubstitution matched before after r
        end
      else c :: getSubstitution matched before after r
  end.

(** [s.replace(pat, repl)] with a string pattern: only the first occurrence
    is replaced. *)
Definition replace (s pat repl : jsstring) : jsstring :=
  match indexOf pat s with
  | None => s
  | Some i =>
      let before := firstn i s in
      let after := skipn (i + length pat) s in
      before ++ getSubstitution pat before after repl ++ after
  end.

End JS.

Import JS.

(** ** Regular expressions

    The four patterns of the source are sequences of single characters, an
    optional character, the anchors and one capturing group of a bounded
    repetition of [0-9].  [run] is the backtracking matcher at one start
    position; [exec] tries the start positions from left to right (the
    patterns carry no flag, so [lastIndex] is not used). *)

Module Regex.

Inductive atom :=
| Chr (c : code_unit)               (* a literal character *)
| OptChr (c : code_unit)            (* c? , greedy *)
| Bol                               (* ^ *)
| Eol                               (* $ *)
| CapDigits (lo hi : nat).          (* ([0-9]{lo,hi}) , greedy *)

Definition regex := list atom.

(** Greedy bounded repetition of [0-9] followed by the continuation [k]:
    one more digit is tried first, and stopping here is the fallback. *)
Fixpoint rep {X} (lo hi : nat) (s : jsstring) (k : jsstring -> option X)
  : option (jsstring * X) :=
  let stop := match lo with
              | O => option_map (pair []) (k s)
              | S _ => None
              end in
  match hi, s with
  | S hi', c :: s' =>
      if isDigit c then
        match rep (pred lo) hi' s' k with
        | Some (ds, x) => Some (c :: ds, x)
        | None => stop
        end
      else stop
  | _, _ => stop
  end.

Definition consChar (c : code_unit) (r : option (jsstring * option jsstring))
  : option (jsstring * option jsstring) :=
  option_map (fun '(m, cap) => (c :: m, cap)) r.

(** [run r atStart s]: the text matched by [r] as a prefix of [s] and the
    text of its group, [atStart] telling whether [s] begins at index 0. *)
Fixpoint run (r : regex) (atStart : bool) (s : jsstring)
  : option (jsstring * option jsstring) :=
  match r with
  | [] => Some ([], None)
  | Chr c :: r' =>
      match s with
      | x :: s' => if (x =? c)%N then consChar x (run r' false s') else None
      | [] => None
      end
  | OptChr c :: r' =>
      let skip := run r' atStart s in
      match s with
      | x :: s' =>
          if (x =? c)%N then
            match consChar x (run r' false s') with
            | Some m => Some m
            | None => skip
            end
          else skip
      | [] => skip
      end
  | Bol :: r' => if atStart then run r' atStart s else None
  | Eol :: r' =>
      match s with
      | [] => run r' atStart s
      | _ :: _ => None
      end
  | CapDigits lo hi :: r' =>
      match rep lo hi s
              (fun s' => run r' (atStart && Nat.eqb (length s') (length s)) s')
      with
      | Some (ds, (m, _)) => Some (ds ++ m, Some ds)
      | None => None
      end
  end.

(** The match object: [index], [match[0]] and [match[1]]. *)
Record matchResult := {
  index : nat;
  whole : jsstring;
  group1 : jsstring
}.

Definition mkResult (i : nat) (m : jsstring * option jsstring) : matchResult :=
  {| index := i; whole := fst m;
     group1 := match snd m with Some g => g | None => [] end |}.

Fixpoint scan (r : regex) (i : nat) (s : jsstring) : option matchResult :=
  match run r (Nat.eqb i 0) s with
  | Some m => Some (mkResult i m)
  | None =>
      match s with
      | [] => None
      | _ :: s' => scan r (S i) s'
      end
  end.

Definition exec (r : regex) (s : jsstring) : option matchResult := scan r 0 s.

End Regex.

Import Regex.

(** ** The directories the parser queries *)

Module Eris.

(** Modelled from the spec: the keyed collections of the Eris client (users,
    channels, roles and members), which are not part of this repository.  A
    collection is a map in insertion order with lookup by ID ([get]) and
    linear search by predicate ([find]); both give [undefined] on a miss. *)
Definition Collection (V : Type) := list (jsstring * V).

Fixpoint get {V} (c : Collection V) (id : jsstring) : option V :=
  match c with
  | [] => None
  | (k, v) :: c' => if string_eqb k id then Some v else get c' id
  end.

Fixpoint find {V} (c : Collection V) (pred : V -> bool) : option V :=
  match c with
  | [] => None
  | (_, v) :: c' => if pred v then Some v else find c' pred
  end.

(** Modelled from the spec: the fields of the Eris entities that the parser
    reads.  A member's [username] is its user's; [nick] may be unset. *)
Record User := {
  username : jsstring;
  discriminator : jsstring
}.

Record Member := {
  nick : option jsstring;
  member_username : jsstring
}.

Record Channel := { channel_name : jsstring }.

Record Role := { role_name : jsstring }.

Record Guild := {
  channels : Collection Channel;
  roles : Collection Role;
  members : Collection Member
}.

(** [msg.channel.guild] is unset for a private channel. *)
Record Message := { guild : option Guild }.

(** [msg._client]: the user cache and the global channel lookup. *)
Record Client := {
  users : Collection User;
  getChannel : jsstring -> option Channel
}.

End Eris.

Import Eris.

(** ** The parser *)

Definition idMatcher : regex := [Bol; CapDigits 15 21; Eol].
Definition userMentionMatcher : regex :=
  [Chr LT; Chr AT; OptChr BANG; CapDigits 15 21; Chr GT].
Definition channelMentionMatcher : regex :=
  [Chr LT; Chr HASH; CapDigits 15 21; Chr GT].
Definition roleMentionMatcher : regex :=
  [Chr LT; Chr AT; Chr AMP; CapDigits 15 21; Chr GT].

(** The object built by the constructor.  [args] is the one array shared
    with the caller: every operation returns the array as it leaves it. *)
Record ArgParser := {
  msg : Message;
  args : list jsstring;
  bot : Client
}.

Definition setArgs (p : ArgParser) (a : list jsstring) : ArgParser :=
  {| msg := msg p; args := a; bot := bot p |}.

(** [a || b] on two possible matches. *)
Definition orElse {A} (a b : option A) : option A :=
  match a with
  | Some _ => a
  | None => b
  end.

(** [consumeRest ? this.args.splice(0).join(' ') : this.args.shift()] *)
Definition consume (consumeRest : bool) (p : ArgParser)
  : option jsstring * ArgParser :=
  if consumeRest then
    let '(removed, rest) := splice (args p) 0 None in
    (Some (join [SPACE] removed), setArgs p rest)
  else
    let '(x, rest) := shift (args p) in
    (x, setArgs p rest).

(** [args.length > 5 && args.slice(-5, -4) === '#'] *)
Definition hasDiscrim (a : jsstring) : bool :=
  (5 <? length a) && string_eqb (slice a (-5) (-4)) [HASH].

Definition resolveUser (consumeRest : bool) (p : ArgParser)
  : option User * ArgParser :=
  let '(a, p') := consume consumeRest p in
  match a with
  | Some ((_ :: _) as a) =>
      match orElse (exec idMatcher a) (exec userMentionMatcher a) with
      | Some idMatch => (get (users (bot p')) (group1 idMatch), p')
      | None =>
          if hasDiscrim a then
            (find (users (bot p'))
               (fun user =>
                  string_eqb (username user ++ [HASH] ++ discriminator user) a),
             p')
          else
            (find (users (bot p')) (fun user => string_eqb (username user) a),
             p')
      end
  | _ => (None, p')
  end.

Definition resolveChannel (consumeRest : bool) (p : ArgParser)
  : option Channel * ArgParser :=
  let '(a, p') := consume consumeRest p in
  match a with
  | Some ((_ :: _) as a) =>
      match orElse (exec idMatcher a) (exec channelMentionMatcher a) with
      | Some idMatch => (getChannel (bot p') (group1 idMatch), p')
      | None =>
          match guild (msg p') with
          | None => (None, p')
          | Some g =>
              (find (channels g)
                 (fun channel => string_eqb (channel_name channel) a), p')
          end
      end
  | _ => (None, p')
  end.

Definition resolveRole (consumeRest : bool) (p : ArgParser)
  : option Role * ArgParser :=
  let '(a, p') := consume consumeRest p in
  match guild (msg p'), a with
  | Some g, Some ((_ :: _) as a) =>
      match orElse (exec idMatcher a) (exec roleMentionMatcher a) with
      | Some idMatch => (get (roles g) (group1 idMatch), p')
      | None =>
          (find (roles g) (fun role => string_eqb (role_name role) a), p')
      end
  | _, _ => (None, p')
  end.

Definition nextArgument (consumeRest : bool) (p : ArgParser)
  : option jsstring * ArgParser :=
  consume consumeRest p.

(** *** cleanContent

    The three [while] loops have no bound in the source, so they take fuel:
    [Running] says that a loop has not ended after [fuel] iterations.
    [Throw] is the TypeError of reading a property of [undefined]. *)

Inductive completion (A : Type) :=
| Normal (a : A)
| Throw
| Running.

Arguments Throw {A}.
Arguments Running {A}.

Definition bind {A B} (c : completion A) (k : A -> completion B)
  : completion B :=
  match c with
  | Normal a => k a
  | Throw => Throw
  | Running => Running
  end.

Notation "x <- c ;; k" := (bind c (fun x => k))
  (at level 61, c at next level, right associativity).

(** [nick || username] *)
Definition displayName (nick : option jsstring) (username : jsstring)
  : jsstring :=
  match nick with
  | Some ((_ :: _) as n) => n
  | _ => username
  end.

(** The name that replaces a user mention: a member of the guild when there
    is one, a user of the client's cache otherwise. *)
Definition userReplacement (p : ArgParser) (id : jsstring) : jsstring :=
  let user :=
    match guild (msg p) with
    | Some g =>
        option_map (fun m => displayName (nick m) (member_username m))
                   (get (members g) id)
    | None => option_map (fun u => displayName None (username u))
                         (get (users (bot p)) id)
    end in
  match user with
  | Some name => AT :: name
  | None => lit "@deleted-user"
  end.

Fixpoint cleanUsers (fuel : nat) (p : ArgParser) (a : jsstring)
  : completion jsstring :=
  match exec userMentionMatcher a with
  | None => Normal a
  | Some m =>
      match fuel with
      | O => Running
      | S fuel' =>
          cleanUsers fuel' p
            (replace a (whole m) (userReplacement p (group1 m)))
      end
  end.

Fixpoint cleanChannels (fuel : nat) (p : ArgParser) (a : jsstring)
  : completion jsstring :=
  match exec channelMentionMatcher a with
  | None => Normal a
  | Some m =>
      match fuel with
      | O => Running
      | S fuel' =>
          match guild (msg p) with
          | None => Throw
          | Some g =>
              let formatted :=
                match get (channels g) (group1 m) with
                | Some channel => HASH :: channel_name channel
                | None => lit "#deleted-channel"
                end in
              cleanChannels fuel' p (replace a (whole m) formatted)
          end
      end
  end.

Fixpoint cleanRoles (fuel : nat) (p : ArgParser) (a : jsstring)
  : completion jsstring :=
  match exec roleMentionMatcher a with
  | None => Normal a
  | Some m =>
      match fuel with
      | O => Running
      | S fuel' =>
          match guild (msg p) with
          | None => Throw
          | Some g =>
              let formatted :=
                match get (roles g) (group1 m) with
                | Some role => AT :: role_name role
                | None => lit "@deleted-role"
                end in
              cleanRoles fuel' p (replace a (whole m) formatted)
          end
      end
  end.

(** The last statement: the first [@everyone] and the first [@here]. *)
Definition cleanEveryoneHere (a : jsstring) : jsstring :=
  replace (replace a (lit "@everyone") (AT :: ZWSP :: lit "everyone"))
          (lit "@here") (AT :: ZWSP :: lit "here").

Definition cleanContent (fuel : nat) (consumeRest : bool) (p : ArgParser)
  : completion (option jsstring) * ArgParser :=
  let '(a, p') := consume consumeRest p in
  match a with
  | Some ((_ :: _) as a) =>
      (a1 <- cleanUsers fuel p' a ;;
       a2 <- cleanChannels fuel p' a1 ;;
       a3 <- cleanRoles fuel p' a2 ;;
       Normal (Some (cleanEveryoneHere a3)),
       p')
  | _ => (Normal None, p')
  end.

(** *** The operations that do not consume *)

Definition isEmpty (p : ArgParser) : bool :=
  negb (truthy (nth_error (args p) 0)).

Definition gather (p : ArgParser) : jsstring := join [SPACE] (args p).

Definition textLength (p : ArgParser) : nat := length (gather p).

(** [this.args.slice(index, 1).join(' ')] *)
Definition getArgument (index : Z) (p : ArgParser) : jsstring * ArgParser :=
  (join [SPACE] (slice (args p) index 1), p).

(** [this.args.splice(index, 1)] *)
Definition drop (index : Z) (p : ArgParser) : ArgParser :=
  setArgs p (snd (splice (args p) index (Some 1%Z))).

(** ** Sample data *)

Module Sample.

Definition id1 : jsstring := lit "111111111111111111".
Definition id2 : jsstring := lit "123456789012345678".

Definition jane : User :=
  {| username := lit "Jane"; discriminator := lit "0001" |}.

Definition client : Client :=
  {| users := [(id2, jane)]; getChannel := fun _ => None |}.

Definition guild1 : Guild :=
  {| channels := [(id1, {| channel_name := lit "general" |})];
     roles := [(id1, {| role_name := lit "1" |})];
     members := [(id2, {| nick := None; member_username := lit "Jane" |})] |}.

Definition guild2 : Guild :=
  {| channels := [(id1, {| channel_name := lit "general" |})];
     roles := [(id1, {| role_name := lit "Admin" |})];
     members := [(id2, {| nick := Some (lit "JJ");
                          member_username := lit "Jane" |})] |}.

(** A member whose nickname is a mention of that member. *)
Definition guild3 : Guild :=
  {| channels := [];
     roles := [];
     members := [(id1, {| nick := Some (lit "<@111111111111111111>");
                          member_username := lit "Loop" |})] |}.

(** A guild where a member and a role that nobody mentions have names
    with [<], [$&] and a leading digit. *)
Definition id3 : jsstring := lit "333333333333333333".

Definition guild4 : Guild :=
  {| channels := [(id1, {| channel_name := lit "general" |})];
     roles := [(id1, {| role_name := lit "Admin" |});
               (id3, {| role_name := lit "1<$&" |})];
     members := [(id2, {| nick := Some (lit "JJ");
                          member_username := lit "Jane" |});
                 (id3, {| nick := Some (lit "I <3 cats");
                          member_username := lit "Cat" |})] |}.

(** One mention of each kind. *)
Definition threeMentions : list jsstring :=
  [lit "<@123456789012345678>"; lit "<#111111111111111111>";
   lit "<@&111111111111111111>"].

(** A cached user whose username is the empty string. *)
Definition ghost : User :=
  {| username := []; discriminator := lit "0000" |}.

Definition ghostParser (a : list jsstring) : ArgParser :=
  {| msg := {| guild := None |}; args := a;
     bot := {| users := [(id1, ghost)]; getChannel := fun _ => None |} |}.

Definition direct (a : list jsstring) : ArgParser :=
  {| msg := {| guild := None |}; args := a; bot := client |}.

Definition inGuild (g : Guild) (a : list jsstring) : ArgParser :=
  {| msg := {| guild := Some g |}; args := a; bot := client |}.

End Sample.

(** ** The vocabulary of the properties *)

(** The three kinds of mention. *)
Inductive kind := KUser | KChannel | KRole.

Definition matcher (k : kind) : regex :=
  match k with
  | KUser => userMentionMatcher
  | KChannel => channelMentionMatcher
  | KRole => roleMentionMatcher
  end.

(** A snowflake ID: 15 to 21 characters of [0-9]. *)
Definition isId (ds : jsstring) : Prop :=
  forallb isDigit ds = true /\ 15 <= length ds <= 21.

(** What stands between [<] and the ID in a mention of each kind. *)
Definition isTag (k : kind) (tag : jsstring) : Prop :=
  match k with
  | KUser => tag = [AT] \/ tag = [AT; BANG]
  | KChannel => tag = [HASH]
  | KRole => tag = [AT; AMP]
  end.

Definition mentionText (tag ds : jsstring) : jsstring :=
  LT :: tag ++ ds ++ [GT].

(** [s] holds a mention of kind [k] somewhere. *)
Definition contains (k : kind) (s : jsstring) : Prop :=
  exists pre tag ds post,
    isTag k tag /\ isId ds /\ s = pre ++ mentionText tag ds ++ post.

(** [t] begins with a mention of kind [k]. *)
Definition starts (k : kind) (t : jsstring) : Prop :=
  exists tag ds post,
    isTag k tag /\ isId ds /\ t = mentionText tag ds ++ post.

(** The number of [<] in a string: the measure of the three loops. *)
Definition countLT (s : jsstring) : nat := count_occ N.eq_dec s LT.

(** A name that holds neither [<] nor [$]. *)
Definition plainName (n : jsstring) : bool :=
  forallb (fun c => negb ((c =? LT)%N || (c =? DOLLAR)%N)) n.

(** The three loops have one shape: while the pattern matches, replace the
    first occurrence of the matched text by the text computed from the ID. *)
Fixpoint rewriteLoop (r : regex) (fmt : jsstring -> completion jsstring)
         (fuel : nat) (a : jsstring) : completion jsstring :=
  match exec r a with
  | None => Normal a
  | Some m =>
      match fuel with
      | O => Running
      | S fuel' =>
          t <- fmt (group1 m) ;;
          rewriteLoop r fmt fuel' (replace a (whole m) t)
      end
  end.

(** The text [repl], put right after a [<], does not begin a mention. *)
Definition cannotComplete (k : kind) (repl : jsstring) : Prop :=
  forall post, ~ starts k (LT :: repl ++ post).

(** The leftmost mention of kind [k] in [s] carries the ID [id]. *)
Definition firstMention (k : kind) (s id : jsstring) : Prop :=
  exists pre tag post,
    isTag k tag /\ isId id /\ s = pre ++ mentionText tag id ++ post /\
    forall pre' tag' id' post',
      isTag k tag' -> isId id' -> s = pre' ++ mentionText tag' id' ++ post' ->
      length pre <= length pre'.

(** The string is longer than 5 and its 5th character from the end is [#]. *)
Definition fifthFromEndIsHash (s : jsstring) : bool :=
  (5 <? length s) && (nth (length s - 5) s 0%N =? HASH)%N.

(** [s] with the character [c] inserted before position [i]. *)
Definition insertAt (i : nat) (c : code_unit) (s : jsstring) : jsstring :=
  firstn i s ++ c :: skipn i s.

(** [v] is the first value of the collection that satisfies [P]. *)
Definition firstMatch {V} (c : Collection V) (P : V -> Prop) (v : V) : Prop :=
  exists before k after,
    c = before ++ (k, v) :: after /\ P v /\
    forall kv, In kv before -> ~ P (snd kv).

(** The name test of [resolveUser] for the string [s]:
    [username#discriminator] when the 5th character from the end is [#],
    [username] otherwise. *)
Definition userNameMatches (s : jsstring) (u : User) : Prop :=
  if fifthFromEndIsHash s
  then username u ++ [HASH] ++ discriminator u = s
  else username u = s.

(** A string without its U+200B characters. *)
Definition stripZwsp (s : jsstring) : jsstring :=
  filter (fun c => negb (c =? ZWSP)%N) s.

(** A username that is plain, not empty, and does not begin with [&]. *)
Definition safeUserName (n : jsstring) : bool :=
  plainName n &&
  match n with
  | [] => false
  | c :: _ => negb (c =? AMP)%N
  end.

Definition safeUsers (c : Collection User) : bool :=
  forallb (fun kv => safeUserName (username (snd kv))) c.

(** The tokens of [l] with one space between each two neighbours, written
    with [concat] and [map] and without the [join] of the model. *)
Definition spaced (l : list jsstring) : jsstring :=
  match l with
  | [] => []
  | x :: rest => x ++ concat (map (cons SPACE) rest)
  end.

(** What a consuming operation has to work on, read off the list: all the
    tokens with single spaces for consume-rest, the first token otherwise
    ([None] is [undefined], on an empty list). *)
Definition consumedText (consumeRest : bool) (l : list jsstring)
  : option jsstring :=
  if consumeRest then Some (spaced l) else hd_error l.

(** The string is longer than 5 and its 5th character from the end is [#],
    as a proposition. *)
Definition hashFifth (s : jsstring) : Prop :=
  5 < length s /\ nth_error s (length s - 5) = Some HASH.

(** Where [pat] occurs first in [s]: at no position ([None]), or at position
    [i] and at none before ([Some i]). *)
Definition firstAt (pat s : jsstring) (o : option nat) : Prop :=
  match o with
  | None => forall pre post, s <> pre ++ pat ++ post
  | Some i =>
      exists pre post,
        s = pre ++ pat ++ post /\ length pre = i /\
        forall pre' post', s = pre' ++ pat ++ post' -> i <= length pre'
  end.

(** [s] with U+200B inserted after the character at position [i] and after
    the character at position [j], both positions counted in [s], for the
    positions that are given. *)
Definition zwspAfter (oi oj : option nat) (s : jsstring) : jsstring :=
  match oi, oj with
  | None, None => s
  | Some i, None => insertAt (S i) ZWSP s
  | None, Some j => insertAt (S j) ZWSP s
  | Some i, Some j =>
      if j <? i then insertAt (S j) ZWSP (insertAt (S i) ZWSP s)
      else insertAt (S i) ZWSP (insertAt (S j) ZWSP s)
  end.

(** [s] holds a mention of kind [k] with the ID [id]. *)
Definition mentions (k : kind) (id : jsstring) (s : jsstring) : Prop :=
  exists pre tag post,
    isTag k tag /\ isId id /\ s = pre ++ mentionText tag id ++ post.

(** [t] begins with a mention of kind [k] with the ID [id]. *)
Definition startsId (k : kind) (id : jsstring) (t : jsstring) : Prop :=
  exists tag post, isTag k tag /\ isId id /\ t = mentionText tag id ++ post.

(** A replacement text without any of the patterns [$$], [$&], [$`], [$']. *)
Fixpoint noPattern (r : jsstring) : bool :=
  match r with
  | [] => true
  | c :: r' =>
      negb ((c =? DOLLAR)%N &&
            match r' with
            | [] => false
            | d :: _ =>
                (d =? DOLLAR)%N || (d =? AMP)%N || (d =? BACKTICK)%N
                || (d =? QUOTE)%N
            end)
      && noPattern r'
  end.

(** A name that can be inserted for a mention of kind [k]: it holds no [<]
    and no replacement pattern, is not empty, and does not begin with a digit
    nor, after [@] (users and roles), with [!] or [&]. *)
Definition safeName (k : kind) (n : jsstring) : bool :=
  forallb (fun c => negb (c =? LT)%N) n && noPattern n &&
  match n with
  | [] => false
  | c :: _ =>
      negb (isDigit c) &&
      match k with
      | KChannel => true
      | KUser | KRole => negb ((c =? BANG)%N || (c =? AMP)%N)
      end
  end.

(** What the call needs of the string [s] it consumes: the text inserted
    after [@] or [#] for each mention of [s] is a safe name (the texts for
    unknown IDs always are), and without a guild [s] holds no channel and no
    role mention.  Names of users, channels and roles that [s] does not
    mention are free. *)
Definition safeCall (p : ArgParser) (s : jsstring) : Prop :=
  (forall id, mentions KUser id s ->
              safeName KUser (tl (userReplacement p id)) = true) /\
  match guild (msg p) with
  | Some g =>
      (forall id channel,
          mentions KChannel id s -> get (channels g) id = Some channel ->
          safeName KChannel (channel_name channel) = true) /\
      (forall id role,
          mentions KRole id s -> get (roles g) id = Some role ->
          safeName KRole (role_name role) = true)
  | None => ~ contains KChannel s /\ ~ contains KRole s
  end.

(** The IDs of the mentions of kind [k] in [s], by start position. *)
Fixpoint mentionIds (k : kind) (s : jsstring) : list jsstring :=
  match run (matcher k) false s with
  | Some (_, Some id) => [id]
  | _ => []
  end ++
  match s with
  | [] => []
  | _ :: s' => mentionIds k s'
  end.

(** ** Facts about the JavaScript primitives *)

Section Primitives.

Lemma string_eqb_eq (a b : jsstring) : string_eqb a b = true <-> a = b.
Proof.
  revert b; induction a as [|x a IH]; intros [|y b]; simpl;
    try (split; [discriminate | congruence]); try tauto.
  rewrite andb_true_iff, N.eqb_eq, IH. split.
  - intros [-> ->]; reflexivity.
  - intros [= -> ->]; auto.
Qed.

Lemma string_eqb_refl (a : jsstring) : string_eqb a a = true.
Proof. apply string_eqb_eq; reflexivity. Qed.

Lemma prefixb_app (p t : jsstring) : prefixb p (p ++ t) = true.
Proof.
  induction p as [|x p IH]; simpl; [reflexivity|].
  rewrite N.eqb_refl; exact IH.
Qed.

Lemma prefixb_split (p s : jsstring) :
  prefixb p s = true -> s = p ++ skipn (length p) s.
Proof.
  revert s; induction p as [|x p IH]; intros [|y s]; simpl;
    try discriminate; try reflexivity.
  rewrite andb_true_iff, N.eqb_eq. intros [-> H].
  f_equal; apply IH, H.
Qed.

Lemma prefixb_cons (x c : code_unit) (q s : jsstring) :
  prefixb (x :: q) (c :: s) = (x =? c)%N && prefixb q s.
Proof. reflexivity. Qed.

Lemma indexOfFrom_shift (i : nat) (p s : jsstring) :
  indexOfFrom i p s = option_map (Nat.add i) (indexOf p s).
Proof.
  unfold indexOf. revert i; induction s as [|c s IH]; intros i; simpl.
  - destruct (prefixb p []); simpl; f_equal; lia.
  - destruct (prefixb p (c :: s)); simpl; [f_equal; lia|].
    rewrite (IH (S i)), (IH 1). destruct (indexOfFrom 0 p s); simpl;
      [f_equal; lia | reflexivity].
Qed.

Lemma indexOf_cons (p : jsstring) (c : code_unit) (s : jsstring) :
  indexOf p (c :: s) =
  if prefixb p (c :: s) then Some 0 else option_map S (indexOf p s).
Proof.
  unfold indexOf at 1; simpl.
  destruct (prefixb p (c :: s)); [reflexivity|].
  apply indexOfFrom_shift.
Qed.

(** The position found by [indexOf] splits the string around the pattern. *)
Lemma indexOf_split (p s : jsstring) (i : nat) :
  indexOf p s = Some i ->
  s = firstn i s ++ p ++ skipn (i + length p) s /\ i + length p <= length s.
Proof.
  revert i; induction s as [|c s IH]; intros i.
  - unfold indexOf; simpl. destruct (prefixb p []) eqn:E; [|discriminate].
    intros [= <-]. destruct p; [simpl; auto | discriminate].
  - rewrite indexOf_cons. destruct (prefixb p (c :: s)) eqn:E.
    + intros [= <-]. simpl firstn. simpl app at 1.
      split; [apply prefixb_split, E|].
      apply prefixb_split in E. apply (f_equal (@length _)) in E.
      rewrite length_app in E. simpl in *; lia.
    + destruct (indexOf p s) as [j|] eqn:F; [|discriminate].
      simpl. intros [= <-]. destruct (IH j eq_refl) as [H1 H2].
      simpl. split; [f_equal; exact H1 | lia].
Qed.

(** A pattern that occurs is found. *)
Lemma indexOf_occurs (p pre post : jsstring) :
  exists i, indexOf p (pre ++ p ++ post) = Some i /\ i <= length pre.
Proof.
  induction pre as [|c pre IH].
  - simpl. destruct post, p; unfold indexOf; simpl;
      try rewrite N.eqb_refl; try rewrite prefixb_app; simpl;
      eexists; split; try reflexivity; lia.
  - simpl app. rewrite indexOf_cons.
    destruct (prefixb p (c :: pre ++ p ++ post)).
    + exists 0; split; [reflexivity | simpl; lia].
    + destruct IH as (i & -> & Hi). exists (S i); split;
        [reflexivity | simpl; lia].
Qed.

Lemma indexOf_none (p s : jsstring) :
  indexOf p s = None -> forall pre post, s <> pre ++ p ++ post.
Proof.
  intros H pre post ->. destruct (indexOf_occurs p pre post) as (i & E & _).
  congruence.
Qed.

(** A replacement text without [$] is inserted as it is. *)
Lemma getSubstitution_literal (m b a r : jsstring) :
  ~ In DOLLAR r -> getSubstitution m b a r = r.
Proof.
  induction r as [|c r IH]; simpl; [reflexivity|].
  intros H. destruct (N.eqb_spec c DOLLAR) as [->|_]; [tauto|].
  f_equal; apply IH; tauto.
Qed.

Lemma replace_absent (s pat repl : jsstring) :
  indexOf pat s = None -> replace s pat repl = s.
Proof. unfold replace; intros ->; reflexivity. Qed.

(** [replace] on a pattern that occurs: the string splits around an
    occurrence of the pattern and the replacement takes its place. *)
Lemma replace_occurs (s pat repl pre0 post0 : jsstring) :
  s = pre0 ++ pat ++ post0 -> ~ In DOLLAR repl ->
  exists pre post,
    s = pre ++ pat ++ post /\ replace s pat repl = pre ++ repl ++ post /\
    indexOf pat s = Some (length pre).
Proof.
  intros -> Hr. unfold replace.
  destruct (indexOf_occurs pat pre0 post0) as (i & E & _). rewrite E.
  destruct (indexOf_split _ _ E) as [H1 H2].
  exists (firstn i (pre0 ++ pat ++ post0)),
         (skipn (i + length pat) (pre0 ++ pat ++ post0)).
  split; [exact H1|]. rewrite getSubstitution_literal by exact Hr.
  split; [reflexivity|]. rewrite length_firstn.
  f_equal. lia.
Qed.

Lemma firstn_exact {A} (a b : list A) : firstn (length a) (a ++ b) = a.
Proof. induction a as [|x a IH]; simpl; [reflexivity | f_equal; exact IH]. Qed.

Lemma skipn_exact {A} (a b : list A) : skipn (length a) (a ++ b) = b.
Proof. induction a as [|x a IH]; simpl; auto. Qed.

End Primitives.

(** ** What the four patterns match *)

Section Patterns.

Lemma rep_sound {X} (lo hi : nat) (s : jsstring) (k : jsstring -> option X)
      (ds : jsstring) (x : X) :
  rep lo hi s k = Some (ds, x) ->
  exists s', s = ds ++ s' /\ forallb isDigit ds = true /\
             lo <= length ds <= hi /\ k s' = Some x.
Proof.
  revert lo s ds. induction hi as [|hi IH]; intros lo s ds.
  - simpl. destruct lo; [|destruct s; discriminate].
    destruct s as [|c s]; simpl;
      (destruct (k _) eqn:K; [|discriminate]);
      intros [= <- <-]; eexists; simpl; eauto with arith.
  - assert (Stop : (match lo with
                    | O => option_map (pair []) (k s)
                    | S _ => None
                    end) = Some (ds, x) ->
                   exists s', s = ds ++ s' /\ forallb isDigit ds = true /\
                              lo <= length ds <= S hi /\ k s' = Some x).
    { destruct lo; [|discriminate]. destruct (k s) eqn:K; [|discriminate].
      intros [= <- <-]. exists s; simpl; repeat split; auto with arith. }
    simpl. destruct s as [|c s']; [exact Stop|].
    destruct (isDigit c) eqn:D; [|exact Stop].
    destruct (rep (pred lo) hi s' k) as [[ds' x']|] eqn:R; [|exact Stop].
    intros [= <- <-]. destruct (IH _ _ _ R) as (t & -> & Hd & Hl & Hk).
    exists t; simpl; rewrite D, Hd. repeat split; auto; lia.
Qed.

(** Greedy repetition takes the whole run of digits when the text goes on
    with something that is not a digit. *)
Lemma rep_complete {X} (lo hi : nat) (ds t : jsstring)
      (k : jsstring -> option X) (x : X) :
  forallb isDigit ds = true -> lo <= length ds <= hi ->
  k t = Some x -> (forall c t', t = c :: t' -> isDigit c = false) ->
  rep lo hi (ds ++ t) k = Some (ds, x).
Proof.
  intros Hd Hl Hk Ht. revert lo hi Hd Hl.
  induction ds as [|c ds IH]; intros lo hi Hd Hl.
  - simpl in Hl. assert (lo = 0) by lia; subst lo. simpl app.
    destruct hi; simpl; [destruct t; rewrite Hk; reflexivity|].
    destruct t as [|c t']; [rewrite Hk; reflexivity|].
    rewrite (Ht c t' eq_refl), Hk; reflexivity.
  - simpl in Hd, Hl. apply andb_true_iff in Hd as [Hc Hd].
    destruct hi as [|hi]; [lia|]. simpl. rewrite Hc.
    rewrite (IH (pred lo) hi) by (auto; lia). reflexivity.
Qed.

(** The end of every mention pattern: the group and [>]. *)
Lemma run_id_gt (lo hi : nat) (b : bool) (s : jsstring)
      (r : jsstring * option jsstring) :
  run [CapDigits lo hi; Chr GT] b s = Some r <->
  exists ds post,
    forallb isDigit ds = true /\ lo <= length ds <= hi /\
    s = ds ++ GT :: post /\ r = (ds ++ [GT], Some ds).
Proof.
  simpl. split.
  - destruct (rep lo hi s _) as [[ds [m c]]|] eqn:R; [|discriminate].
    intros [= <-]. apply rep_sound in R as (t & -> & Hd & Hl & Hk).
    destruct t as [|x t]; [discriminate|].
    destruct (N.eqb_spec x GT) as [->|]; [|discriminate].
    simpl in Hk. injection Hk as <- <-. exists ds, t; auto.
  - intros (ds & post & Hd & Hl & -> & ->).
    rewrite (@rep_complete _ lo hi ds (GT :: post) _ ([GT], None));
      auto.
    intros c t' [= <- <-]. reflexivity.
Qed.

Lemma digit_not (c x : code_unit) :
  isDigit c = true -> isDigit x = false -> (c =? x)%N = false.
Proof.
  intros Hc Hx. destruct (N.eqb_spec c x) as [->|]; congruence.
Qed.

Lemma run_chr (c : code_unit) (r : regex) (b : bool) (s : jsstring) :
  run (Chr c :: r) b s =
  match s with
  | x :: s' => if (x =? c)%N then consChar x (run r false s') else None
  | [] => None
  end.
Proof. reflexivity. Qed.

Lemma run_opt (c : code_unit) (r : regex) (b : bool) (s : jsstring) :
  run (OptChr c :: r) b s =
  match s with
  | x :: s' =>
      if (x =? c)%N then
        match consChar x (run r false s') with
        | Some m => Some m
        | None => run r b s
        end
      else run r b s
  | [] => run r b s
  end.
Proof. destruct s; reflexivity. Qed.

Lemma consChar_some (c : code_unit) (o : option (jsstring * option jsstring))
      (r : jsstring * option jsstring) :
  consChar c o = Some r <->
  exists m cap, o = Some (m, cap) /\ r = (c :: m, cap).
Proof.
  destruct o as [[m cap]|]; simpl; split.
  - intros [= <-]; eauto.
  - intros (m' & cap' & [= <- <-] & ->); reflexivity.
  - discriminate.
  - intros (? & ? & ? & _); discriminate.
Qed.

(** One literal character of a pattern, read off a successful match. *)
Lemma run_chr_some (c : code_unit) (r : regex) (b : bool) (s : jsstring)
      (res : jsstring * option jsstring) :
  run (Chr c :: r) b s = Some res <->
  exists s' m cap,
    s = c :: s' /\ run r false s' = Some (m, cap) /\ res = (c :: m, cap).
Proof.
  rewrite run_chr. destruct s as [|x s']; split.
  - discriminate.
  - intros (? & ? & ? & ? & _); discriminate.
  - destruct (N.eqb_spec x c) as [->|]; [|discriminate].
    intros H; apply consChar_some in H as (m & cap & H & ->); eauto 6.
  - intros (t & m & cap & [= -> ->] & H & ->).
    rewrite N.eqb_refl, H; reflexivity.
Qed.

Lemma isId_head (ds : jsstring) :
  isId ds -> exists c ds', ds = c :: ds' /\ isDigit c = true.
Proof.
  intros [Hd Hl]. destruct ds as [|c ds']; [simpl in Hl; lia|].
  simpl in Hd; apply andb_true_iff in Hd as [Hc _]; eauto.
Qed.

(** A match of a mention pattern at the start of [s] is a mention of that
    kind, and conversely. *)
Lemma run_mention (k : kind) (b : bool) (s : jsstring)
      (r : jsstring * option jsstring) :
  run (matcher k) b s = Some r <->
  exists tag ds post,
    isTag k tag /\ isId ds /\ s = mentionText tag ds ++ post /\
    r = (mentionText tag ds, Some ds).
Proof.
  unfold mentionText, isId.
  destruct k; unfold matcher, userMentionMatcher, channelMentionMatcher,
                roleMentionMatcher; split.
  - (* user, left to right *)
    intros H. apply run_chr_some in H as (s1 & m1 & c1 & -> & H & ->).
    apply run_chr_some in H as (s2 & m2 & c2 & -> & H & [= -> ->]).
    rewrite run_opt in H.
    assert (Skip : run [CapDigits 15 21; Chr GT] false s2 = Some (m2, c2) ->
                   exists tag ds post,
                     isTag KUser tag /\
                     (forallb isDigit ds = true /\ 15 <= length ds <= 21) /\
                     LT :: AT :: s2 = (LT :: tag ++ ds ++ [GT]) ++ post /\
                     (LT :: AT :: m2, c2) = (LT :: tag ++ ds ++ [GT], Some ds)).
    { intros R. apply run_id_gt in R as (ds & post & Hd & Hl & -> & [= -> ->]).
      exists [AT], ds, post. simpl. rewrite <- app_assoc. simpl. auto 6. }
    destruct s2 as [|x s3]; [auto|].
    destruct (N.eqb_spec x BANG) as [->|]; [|auto].
    destruct (consChar BANG _) as [res|] eqn:C; [|auto].
    injection H as ->.
    apply consChar_some in C as (m & cap & R & [= -> ->]).
    apply run_id_gt in R as (ds & post & Hd & Hl & -> & [= -> ->]).
    exists [AT; BANG], ds, post. simpl. rewrite <- app_assoc. simpl. auto 6.
  - (* user, right to left *)
    intros (tag & ds & post & Ht & Hid & -> & ->).
    assert (Tail : forall bb,
               run [CapDigits 15 21; Chr GT] bb (ds ++ GT :: post)
               = Some (ds ++ [GT], Some ds)).
    { intros bb. apply run_id_gt. exists ds, post. destruct Hid; auto. }
    destruct (isId_head Hid) as (c & ds' & E & Hc).
    destruct Ht as [-> | ->]; simpl app; rewrite <- app_assoc; simpl app;
      apply run_chr_some; do 3 eexists; (split; [reflexivity|]);
      (split; [|reflexivity]);
      apply run_chr_some; do 3 eexists; (split; [reflexivity|]);
      (split; [|reflexivity]); rewrite run_opt.
    + specialize (Tail false). rewrite E in Tail |- *. simpl app in *.
      cbv beta iota. rewrite (@digit_not c BANG Hc eq_refl). apply Tail.
    + rewrite N.eqb_refl, Tail. reflexivity.
  - (* channel *)
    intros H. apply run_chr_some in H as (s1 & m1 & c1 & -> & H & ->).
    apply run_chr_some in H as (s2 & m2 & c2 & -> & H & [= -> ->]).
    apply run_id_gt in H as (ds & post & Hd & Hl & -> & [= -> ->]).
    exists [HASH], ds, post. simpl. rewrite <- app_assoc. simpl. auto 6.
  - intros (tag & ds & post & -> & Hid & -> & ->).
    simpl app; rewrite <- app_assoc; simpl app.
    apply run_chr_some; do 3 eexists; (split; [reflexivity|]);
      (split; [|reflexivity]).
    apply run_chr_some; do 3 eexists; (split; [reflexivity|]);
      (split; [|reflexivity]).
    apply run_id_gt. exists ds, post. destruct Hid; auto.
  - (* role *)
    intros H. apply run_chr_some in H as (s1 & m1 & c1 & -> & H & ->).
    apply run_chr_some in H as (s2 & m2 & c2 & -> & H & [= -> ->]).
    apply run_chr_some in H as (s3 & m3 & c3 & -> & H & [= -> ->]).
    apply run_id_gt in H as (ds & post & Hd & Hl & -> & [= -> ->]).
    exists [AT; AMP], ds, post. simpl. rewrite <- app_assoc. simpl. auto 6.
  - intros (tag & ds & post & -> & Hid & -> & ->).
    simpl app; rewrite <- app_assoc; simpl app.
    apply run_chr_some; do 3 eexists; (split; [reflexivity|]);
      (split; [|reflexivity]).
    apply run_chr_some; do 3 eexists; (split; [reflexivity|]);
      (split; [|reflexivity]).
    apply run_chr_some; do 3 eexists; (split; [reflexivity|]);
      (split; [|reflexivity]).
    apply run_id_gt. exists ds, post. destruct Hid; auto.
Qed.

(** [scan] returns the match at the leftmost start position that has one. *)
Lemma scan_some (r : regex) (i : nat) (s : jsstring) (m : matchResult) :
  scan r i s = Some m ->
  exists pre post res,
    s = pre ++ post /\
    run r (Nat.eqb (i + length pre) 0) post = Some res /\
    m = mkResult (i + length pre) res /\
    forall pre' post',
      s = pre' ++ post' -> length pre' < length pre ->
      run r (Nat.eqb (i + length pre') 0) post' = None.
Proof.
  revert i; induction s as [|c s IH]; intros i; simpl.
  - destruct (run r (Nat.eqb i 0) []) as [res|] eqn:R; [|discriminate].
    intros [= <-]. exists [], [], res. simpl. rewrite Nat.add_0_r.
    repeat split; auto. intros; lia.
  - destruct (run r (Nat.eqb i 0) (c :: s)) as [res|] eqn:R.
    + intros [= <-]. exists [], (c :: s), res. simpl. rewrite Nat.add_0_r.
      repeat split; auto. intros; lia.
    + intros H. apply IH in H as (pre & post & res & -> & H1 & -> & H2).
      exists (c :: pre), post, res. simpl length.
      rewrite Nat.add_succ_r. repeat split; auto.
      intros [|c' pre'] post' E L.
      * simpl in E; subst post'. simpl. rewrite Nat.add_0_r. exact R.
      * simpl in E. injection E as <- E. simpl length.
        rewrite Nat.add_succ_r. apply H2; [exact E | simpl in L; lia].
Qed.

Lemma scan_none (r : regex) (i : nat) (s : jsstring) :
  scan r i s = None <->
  forall pre post,
    s = pre ++ post -> run r (Nat.eqb (i + length pre) 0) post = None.
Proof.
  revert i; induction s as [|c s IH]; intros i; simpl.
  - destruct (run r (Nat.eqb i 0) []) as [res|] eqn:R; split.
    + discriminate.
    + intros H. specialize (H [] [] eq_refl). simpl in H.
      rewrite Nat.add_0_r in H. congruence.
    + intros _ pre post E. symmetry in E. apply app_eq_nil in E as [-> ->].
      simpl. rewrite Nat.add_0_r. exact R.
    + reflexivity.
  - destruct (run r (Nat.eqb i 0) (c :: s)) as [res|] eqn:R; split.
    + discriminate.
    + intros H. specialize (H [] (c :: s) eq_refl). simpl in H.
      rewrite Nat.add_0_r in H. congruence.
    + intros H [|c' pre] post E.
      * simpl in E; subst post. simpl. rewrite Nat.add_0_r. exact R.
      * simpl in E. injection E as <- E. simpl length.
        rewrite Nat.add_succ_r. apply (proj1 (IH (S i)) H), E.
    + intros H. apply IH. intros pre post E.
      specialize (H (c :: pre) post). simpl in H.
      rewrite Nat.add_succ_r in H. apply H. congruence.
Qed.

Lemma mkResult_fields (i : nat) (M ds : jsstring) :
  mkResult i (M, Some ds) = {| index := i; whole := M; group1 := ds |}.
Proof. reflexivity. Qed.

(** The mention patterns are unanchored: [exec] fails exactly on the
    strings that hold no mention of the kind. *)
Lemma exec_mention_none (k : kind) (s : jsstring) :
  exec (matcher k) s = None <-> ~ contains k s.
Proof.
  unfold exec. rewrite scan_none. split.
  - intros H (pre & tag & ds & post & Ht & Hid & ->).
    specialize (H pre _ eq_refl).
    assert (R : run (matcher k) (Nat.eqb (0 + length pre) 0)
                    (mentionText tag ds ++ post)
                = Some (mentionText tag ds, Some ds))
      by (apply run_mention; eauto 8).
    congruence.
  - intros H pre post ->.
    destruct (run (matcher k) _ post) as [res|] eqn:R; [|reflexivity].
    apply run_mention in R as (tag & ds & post' & Ht & Hid & -> & _).
    exfalso; apply H. exists pre, tag, ds, post'; auto.
Qed.

(** A successful [exec] of a mention pattern returns the leftmost mention of
    the kind, with its ID as the group. *)
Lemma exec_mention_some (k : kind) (s : jsstring) (m : matchResult) :
  exec (matcher k) s = Some m ->
  exists pre tag ds post,
    isTag k tag /\ isId ds /\ s = pre ++ mentionText tag ds ++ post /\
    m = {| index := length pre; whole := mentionText tag ds; group1 := ds |} /\
    forall pre' tag' ds' post',
      isTag k tag' -> isId ds' -> s = pre' ++ mentionText tag' ds' ++ post' ->
      length pre <= length pre'.
Proof.
  unfold exec. intros H.
  apply scan_some in H as (pre & rest & res & -> & R & -> & Least).
  apply run_mention in R as (tag & ds & post & Ht & Hid & -> & ->).
  exists pre, tag, ds, post.
  split; [exact Ht|]. split; [exact Hid|]. split; [reflexivity|].
  split; [reflexivity|].
  intros pre' tag' ds' post' Ht' Hid' E.
  destruct (Nat.le_gt_cases (length pre) (length pre')) as [|L]; [assumption|].
  specialize (Least pre' _ E L).
  assert (R : run (matcher k) (Nat.eqb (0 + length pre') 0)
                  (mentionText tag' ds' ++ post')
              = Some (mentionText tag' ds', Some ds'))
    by (apply run_mention; eauto 8).
  congruence.
Qed.

Lemma contains_exec (k : kind) (s : jsstring) :
  contains k s -> exists m, exec (matcher k) s = Some m.
Proof.
  intros H. destruct (exec (matcher k) s) as [m|] eqn:E; [eauto|].
  apply exec_mention_none in E. contradiction.
Qed.

(** The bare-ID pattern is anchored at both ends. *)
Lemma run_anchored (lo hi : nat) (s : jsstring)
      (r : jsstring * option jsstring) :
  run [Bol; CapDigits lo hi; Eol] true s = Some r <->
  (forallb isDigit s = true /\ lo <= length s <= hi) /\ r = (s, Some s).
Proof.
  simpl. split.
  - destruct (rep lo hi s _) as [[ds [m c]]|] eqn:R; [|discriminate].
    intros [= <-]. apply rep_sound in R as (t & -> & Hd & Hl & Hk).
    destruct t; [|discriminate]. injection Hk as <- <-.
    rewrite !app_nil_r. auto.
  - intros [[Hd Hl] ->].
    pose proof (@rep_complete _ lo hi s []
                  (fun s' =>
                     run [Eol] (true && Nat.eqb (length s') (length s)) s')
                  ([], None) Hd Hl eq_refl) as R.
    rewrite app_nil_r in R. simpl in R. rewrite R by discriminate.
    rewrite app_nil_r. reflexivity.
Qed.

Lemma run_idMatcher (s : jsstring) (r : jsstring * option jsstring) :
  run idMatcher true s = Some r <-> isId s /\ r = (s, Some s).
Proof. apply run_anchored. Qed.

Lemma scan_bol (r : regex) (i : nat) (s : jsstring) :
  scan (Bol :: r) (S i) s = None.
Proof.
  revert i; induction s as [|c s IH]; intros i; simpl; auto.
Qed.

Lemma exec_idMatcher (s : jsstring) (m : matchResult) :
  exec idMatcher s = Some m <->
  isId s /\ m = {| index := 0; whole := s; group1 := s |}.
Proof.
  unfold exec. destruct s as [|c s].
  - split.
    + simpl. discriminate.
    + intros [[_ Hl] _]. simpl in Hl; lia.
  - change (scan idMatcher 0 (c :: s)) with
      (match run idMatcher true (c :: s) with
       | Some r => Some (mkResult 0 r)
       | None => scan idMatcher 1 s
       end).
    unfold idMatcher at 2. rewrite scan_bol.
    destruct (run idMatcher true (c :: s)) as [r|] eqn:R; split.
    + intros [= <-]. apply run_idMatcher in R as [Hid ->]. auto.
    + intros [Hid ->]. f_equal.
      assert (R' : run idMatcher true (c :: s) = Some (c :: s, Some (c :: s)))
        by (apply run_idMatcher; auto).
      rewrite R in R'. injection R' as ->. reflexivity.
    + discriminate.
    + intros [Hid _].
      assert (R' : run idMatcher true (c :: s) = Some (c :: s, Some (c :: s)))
        by (apply run_idMatcher; auto).
      congruence.
Qed.

Lemma exec_idMatcher_none (s : jsstring) :
  exec idMatcher s = None <-> ~ isId s.
Proof.
  destruct (exec idMatcher s) as [m|] eqn:E; split; try discriminate.
  - intros H. apply exec_idMatcher in E as [Hid _]. contradiction.
  - intros H Hid.
    assert (exec idMatcher s = Some {| index := 0; whole := s; group1 := s |})
      by (apply exec_idMatcher; auto).
    congruence.
  - reflexivity.
Qed.

End Patterns.

Arguments rep : simpl never.
Arguments run : simpl never.
Arguments scan : simpl never.
Arguments exec : simpl never.

(** ** Consuming tokens *)

Section Consume.

Lemma relIndex_nonneg (len i : Z) :
  (0 <= len)%Z -> (0 <= relIndex len i <= len)%Z.
Proof. unfold relIndex. destruct (Z.ltb_spec i 0); lia. Qed.

Lemma splice_all {A} (l : list A) : splice l 0 None = (l, []).
Proof.
  unfold splice, relIndex. simpl Z.ltb. cbv iota.
  rewrite Z.min_l by lia. rewrite Z.sub_0_r, Nat2Z.id. simpl.
  rewrite firstn_all, skipn_all. reflexivity.
Qed.

Lemma consume_rest (p : ArgParser) :
  consume true p = (Some (join [SPACE] (args p)), setArgs p []).
Proof. unfold consume. rewrite splice_all. reflexivity. Qed.

Lemma consume_one (p : ArgParser) :
  consume false p = (hd_error (args p), setArgs p (tl (args p))).
Proof. unfold consume. destruct (args p); reflexivity. Qed.

Lemma consume_context (c : bool) (p : ArgParser) :
  msg (snd (consume c p)) = msg p /\ bot (snd (consume c p)) = bot p.
Proof.
  destruct c; [rewrite consume_rest | rewrite consume_one]; auto.
Qed.

(** What a resolver sees after consuming a non-empty string [s]. *)
Lemma consume_some (c : bool) (p : ArgParser) (s : jsstring) :
  fst (consume c p) = Some s ->
  exists p', consume c p = (Some s, p') /\ msg p' = msg p /\ bot p' = bot p.
Proof.
  intros H. destruct (consume_context c p) as [Hm Hb].
  destruct (consume c p) as [a p'] eqn:E. simpl in *. subst a. eauto.
Qed.

Lemma join_spaced (l : list jsstring) : join [SPACE] l = spaced l.
Proof.
  induction l as [|x l IH]; [reflexivity|].
  destruct l as [|y l]; [simpl; rewrite app_nil_r; reflexivity|].
  change (join [SPACE] (x :: y :: l))
    with (x ++ [SPACE] ++ join [SPACE] (y :: l)).
  rewrite IH. unfold spaced. simpl. reflexivity.
Qed.

(** The string an operation consumes, in terms of the list alone. *)
Lemma consume_text (c : bool) (p : ArgParser) :
  fst (consume c p) = consumedText c (args p).
Proof.
  destruct c; [rewrite consume_rest | rewrite consume_one]; simpl;
    [rewrite join_spaced|]; reflexivity.
Qed.

(** The loops read the message and the client, not the list. *)
Lemma userReplacement_same (p p' : ArgParser) (id : jsstring) :
  msg p' = msg p -> bot p' = bot p ->
  userReplacement p' id = userReplacement p id.
Proof. intros Em Eb. unfold userReplacement. rewrite Em, Eb. reflexivity. Qed.

Lemma cleanUsers_same (fuel : nat) (p p' : ArgParser) (a : jsstring) :
  msg p' = msg p -> bot p' = bot p ->
  cleanUsers fuel p' a = cleanUsers fuel p a.
Proof.
  intros Em Eb. revert a; induction fuel as [|fuel IH]; intros a;
    [reflexivity|].
  simpl. destruct (exec userMentionMatcher a); [|reflexivity].
  rewrite (@userReplacement_same p p' _ Em Eb). apply IH.
Qed.

Lemma cleanChannels_same (fuel : nat) (p p' : ArgParser) (a : jsstring) :
  msg p' = msg p -> cleanChannels fuel p' a = cleanChannels fuel p a.
Proof.
  intros Em. revert a; induction fuel as [|fuel IH]; intros a;
    [reflexivity|].
  simpl. destruct (exec channelMentionMatcher a); [|reflexivity].
  rewrite Em. destruct (guild (msg p)); [apply IH | reflexivity].
Qed.

Lemma cleanRoles_same (fuel : nat) (p p' : ArgParser) (a : jsstring) :
  msg p' = msg p -> cleanRoles fuel p' a = cleanRoles fuel p a.
Proof.
  intros Em. revert a; induction fuel as [|fuel IH]; intros a;
    [reflexivity|].
  simpl. destruct (exec roleMentionMatcher a); [|reflexivity].
  rewrite Em. destruct (guild (msg p)); [apply IH | reflexivity].
Qed.

(** [cleanContent] in terms of the list, the three loops and the last
    step. *)
Lemma cleanContent_unfold (fuel : nat) (c : bool) (p : ArgParser) :
  fst (cleanContent fuel c p) =
  match consumedText c (args p) with
  | Some ((_ :: _) as s) =>
      a1 <- cleanUsers fuel p s ;;
      a2 <- cleanChannels fuel p a1 ;;
      a3 <- cleanRoles fuel p a2 ;;
      Normal (Some (cleanEveryoneHere a3))
  | _ => Normal None
  end.
Proof.
  rewrite <- consume_text. unfold cleanContent.
  destruct (consume_context c p) as [Em Eb].
  destruct (consume c p) as [a p']. simpl in *.
  destruct a as [[|x a]|]; try reflexivity.
  rewrite (@cleanUsers_same fuel p p' _ Em Eb).
  destruct (cleanUsers fuel p (x :: a)) as [a1| |]; try reflexivity.
  simpl. rewrite (@cleanChannels_same fuel p p' _ Em).
  destruct (cleanChannels fuel p a1) as [a2| |]; try reflexivity.
  simpl. rewrite (@cleanRoles_same fuel p p' _ Em). reflexivity.
Qed.

End Consume.

(** ** nextArgument, resolveRole, drop, getArgument *)

Section Cursor.

(** C7: [nextArgument(true)] returns the tokens of the list with one space
    between each two neighbours (the first token followed by a space and a
    token for each further one; the empty string for the empty list) and
    leaves the shared list empty; the message and the client are
    untouched. *)
Theorem nextArgument_rest_joins_and_empties (p : ArgParser) :
  fst (nextArgument true p) =
  Some match args p with
       | [] => []
       | x :: rest => x ++ concat (map (fun t => SPACE :: t) rest)
       end /\
  args (snd (nextArgument true p)) = [] /\
  msg (snd (nextArgument true p)) = msg p /\
  bot (snd (nextArgument true p)) = bot p.
Proof.
  unfold nextArgument. rewrite consume_rest, join_spaced. simpl. auto.
Qed.

Lemma nextArgument_rest_joins_and_empties_witness :
  fst (nextArgument true (Sample.direct [lit "a"; lit "b"; lit "c"]))
  = Some (lit "a b c") /\
  args (snd (nextArgument true (Sample.direct [lit "a"; lit "b"; lit "c"])))
  = [].
Proof.
  destruct (nextArgument_rest_joins_and_empties
              (Sample.direct [lit "a"; lit "b"; lit "c"])) as (H1 & H2 & _).
  split; [rewrite H1; reflexivity | exact H2].
Defined.

(** The guild check of [resolveRole] comes after the consumption. *)
Lemma resolveRole_state (c : bool) (p : ArgParser) :
  snd (resolveRole c p) = snd (nextArgument c p).
Proof.
  unfold resolveRole, nextArgument.
  destruct (consume c p) as [a p']. simpl.
  destruct (guild (msg p')); [|reflexivity].
  destruct a as [[|x a]|]; try reflexivity.
  destruct (orElse _ _); reflexivity.
Qed.

(** C5: [resolveRole] consumes first, with or without a guild: it leaves
    the list without its first token, or empty for consume-rest; and its
    result is absent when the message has no guild, and when the consumed
    string (the first token, or all the tokens spaced) is [undefined] or
    empty. *)
Theorem resolveRole_consumes_then_checks (c : bool) (p : ArgParser) :
  (args (snd (resolveRole c p)) = if c then [] else tl (args p)) /\
  msg (snd (resolveRole c p)) = msg p /\
  bot (snd (resolveRole c p)) = bot p /\
  (guild (msg p) = None -> fst (resolveRole c p) = None) /\
  (consumedText c (args p) = None \/ consumedText c (args p) = Some [] ->
   fst (resolveRole c p) = None).
Proof.
  rewrite resolveRole_state. unfold nextArgument.
  destruct (consume_context c p) as [Hm Hb].
  split; [destruct c; [rewrite consume_rest | rewrite consume_one];
          reflexivity|].
  split; [exact Hm|]. split; [exact Hb|].
  rewrite <- consume_text. unfold resolveRole.
  destruct (consume c p) as [a p']. simpl in *. rewrite Hm. split.
  - intros ->. reflexivity.
  - intros Ha. destruct (guild (msg p)); [|reflexivity].
    destruct Ha as [-> | ->]; reflexivity.
Qed.

Lemma resolveRole_consumes_then_checks_witness :
  guild (msg (Sample.direct [lit "<@&111111111111111111>"; lit "x"])) = None /\
  fst (resolveRole true
         (Sample.direct [lit "<@&111111111111111111>"; lit "x"])) = None /\
  args (snd (resolveRole true
               (Sample.direct [lit "<@&111111111111111111>"; lit "x"])))
  = [] /\
  args (snd (resolveRole false
               (Sample.direct [lit "<@&111111111111111111>"; lit "x"])))
  = [lit "x"] /\
  fst (resolveRole false (Sample.inGuild Sample.guild2 [[]; lit "Admin"]))
  = None /\
  args (snd (resolveRole false
               (Sample.inGuild Sample.guild2 [[]; lit "Admin"])))
  = [lit "Admin"].
Proof.
  destruct (resolveRole_consumes_then_checks true
              (Sample.direct [lit "<@&111111111111111111>"; lit "x"]))
    as (A1 & _ & _ & G1 & _).
  destruct (resolveRole_consumes_then_checks false
              (Sample.direct [lit "<@&111111111111111111>"; lit "x"]))
    as (A2 & _).
  destruct (resolveRole_consumes_then_checks false
              (Sample.inGuild Sample.guild2 [[]; lit "Admin"]))
    as (A3 & _ & _ & _ & E3).
  split; [reflexivity|]. split; [apply G1; reflexivity|].
  split; [exact A1|]. split; [exact A2|].
  split; [apply E3; right; reflexivity | exact A3].
Defined.

Lemma firstn_skipn_S {A} (n : nat) (l : list A) :
  firstn 1 (skipn n l) ++ skipn (S n) l = skipn n l.
Proof.
  revert l; induction n as [|n IH]; intros [|x l]; simpl; auto.
  apply IH.
Qed.

(** [splice(index, 1)] on every integer index. *)
Lemma splice_one {A} (l : list A) (i : Z) :
  let n := Z.of_nat (length l) in
  snd (splice l i (Some 1%Z)) =
  if (n <=? i)%Z then l
  else if (0 <=? i)%Z then
    firstn (Z.to_nat i) l ++ skipn (S (Z.to_nat i)) l
  else if (- n <=? i)%Z then
    firstn (Z.to_nat (n + i)) l ++ skipn (S (Z.to_nat (n + i))) l
  else tl l.
Proof.
  intros n. unfold splice, relIndex. fold n. simpl snd.
  destruct (Z.leb_spec n i).
  - destruct (Z.ltb_spec i 0); [lia|].
    rewrite Z.min_r by lia. unfold n at 1. rewrite Nat2Z.id.
    rewrite firstn_all, skipn_all2 by lia. apply app_nil_r.
  - destruct (Z.leb_spec 0 i).
    + destruct (Z.ltb_spec i 0); [lia|].
      rewrite Z.min_l by lia. rewrite Z.max_l by lia.
      rewrite Z.min_l by lia. simpl Z.to_nat.
      replace (Z.to_nat i + Pos.to_nat 1) with (S (Z.to_nat i)) by lia.
      reflexivity.
    + destruct (Z.ltb_spec i 0); [|lia].
      destruct (Z.leb_spec (- n) i).
      * rewrite (Z.max_l (n + i) 0) by lia. rewrite Z.max_l by lia.
        rewrite Z.min_l by lia.
        replace (Z.to_nat (n + i) + Z.to_nat 1) with (S (Z.to_nat (n + i)))
          by lia.
        reflexivity.
      * rewrite (Z.max_r (n + i) 0) by lia. rewrite Z.max_l by lia.
        simpl. destruct l as [|x l]; [reflexivity|].
        rewrite Z.min_l by (unfold n; simpl length; lia). reflexivity.
Qed.

(** C4 (amended): [drop(index)] changes nothing when [index] is at least
    the length; for [0 <= index < length] it removes exactly the token at
    [index]; a negative index counts from the end, so it removes the token at
    [length + index], and the first token when that is still negative. *)
Theorem drop_by_index (i : Z) (p : ArgParser) :
  let l := args p in
  let n := Z.of_nat (length l) in
  args (drop i p) =
  if (n <=? i)%Z then l
  else if (0 <=? i)%Z then
    firstn (Z.to_nat i) l ++ skipn (S (Z.to_nat i)) l
  else if (- n <=? i)%Z then
    firstn (Z.to_nat (n + i)) l ++ skipn (S (Z.to_nat (n + i))) l
  else tl l.
Proof. unfold drop. simpl. apply splice_one. Qed.

(** The no-op claim fails as stated: [-3] names no position of a list of
    two tokens, counted from either end, and [drop(-3)] removes the first of
    them. *)
Lemma drop_below_range_counterexample :
  ~ (0 <= -3 < Z.of_nat (length (args (Sample.direct [lit "a"; lit "b"]))))%Z /\
  ~ (0 <= Z.of_nat (length (args (Sample.direct [lit "a"; lit "b"]))) + -3)%Z /\
  args (drop (-3) (Sample.direct [lit "a"; lit "b"])) = [lit "b"] /\
  length (args (drop (-3) (Sample.direct [lit "a"; lit "b"])))
  <> length (args (Sample.direct [lit "a"; lit "b"])).
Proof.
  simpl. repeat split; try lia; discriminate.
Qed.

(** [slice(index, 1)] is empty from index 1 on. *)
Lemma getArgument_from_one (i : Z) (p : ArgParser) :
  (1 <= i)%Z -> fst (getArgument i p) = [].
Proof.
  intros H. unfold getArgument, slice, relIndex. simpl fst.
  destruct (Z.ltb_spec i 0); [lia|]. simpl Z.ltb. cbv iota.
  set (n := Z.of_nat (length (args p))).
  assert (0 <= n)%Z by (unfold n; lia).
  replace (Z.to_nat (Z.min 1 n - Z.min i n)) with 0 by lia.
  reflexivity.
Qed.

Lemma getArgument_state (i : Z) (p : ArgParser) : snd (getArgument i p) = p.
Proof. reflexivity. Qed.

(** C2 fails on the code: on the tokens [a; b], [getArgument(1)] returns
    the empty string although the token at index 1 is [b]; the list is left
    as it was. *)
Theorem getArgument_misses_second_token :
  nth_error (args (Sample.direct [lit "a"; lit "b"])) 1 = Some (lit "b") /\
  fst (getArgument 1 (Sample.direct [lit "a"; lit "b"])) = [] /\
  snd (getArgument 1 (Sample.direct [lit "a"; lit "b"]))
  = Sample.direct [lit "a"; lit "b"].
Proof. repeat split. Qed.

(** C1 fails on the code: in a private channel, [cleanContent] on a channel
    mention reads [channels] of the missing guild and throws; the token has
    been consumed by then. *)
Theorem cleanContent_throws_without_guild (fuel : nat) :
  fst (cleanContent (S fuel) false
         (Sample.direct [lit "<#111111111111111111>"])) = Throw /\
  args (snd (cleanContent (S fuel) false
               (Sample.direct [lit "<#111111111111111111>"]))) = [].
Proof.
  split; vm_compute; reflexivity.
Qed.

End Cursor.

(** ** The resolvers *)

Section Resolvers.

Lemma resolveUser_nonempty (c : bool) (p : ArgParser) (s : jsstring) :
  fst (consume c p) = Some s -> s <> [] ->
  fst (resolveUser c p) =
  match orElse (exec idMatcher s) (exec userMentionMatcher s) with
  | Some idMatch => get (users (bot p)) (group1 idMatch)
  | None =>
      if hasDiscrim s then
        find (users (bot p))
          (fun user =>
             string_eqb (username user ++ [HASH] ++ discriminator user) s)
      else find (users (bot p)) (fun user => string_eqb (username user) s)
  end.
Proof.
  intros H Hs. apply consume_some in H as (p' & E & _ & Hb).
  unfold resolveUser. rewrite E, Hb.
  destruct s as [|x s]; [congruence|].
  destruct (orElse _ _); [reflexivity|].
  destruct (hasDiscrim _); reflexivity.
Qed.

Lemma resolveChannel_nonempty (c : bool) (p : ArgParser) (s : jsstring) :
  fst (consume c p) = Some s -> s <> [] ->
  fst (resolveChannel c p) =
  match orElse (exec idMatcher s) (exec channelMentionMatcher s) with
  | Some idMatch => getChannel (bot p) (group1 idMatch)
  | None =>
      match guild (msg p) with
      | None => None
      | Some g =>
          find (channels g) (fun channel => string_eqb (channel_name channel) s)
      end
  end.
Proof.
  intros H Hs. apply consume_some in H as (p' & E & Hm & Hb).
  unfold resolveChannel. rewrite E, Hb, Hm.
  destruct s as [|x s]; [congruence|].
  destruct (orElse _ _); [reflexivity|].
  destruct (guild (msg p)); reflexivity.
Qed.

Lemma resolveRole_nonempty (c : bool) (p : ArgParser) (s : jsstring) :
  fst (consume c p) = Some s -> s <> [] ->
  fst (resolveRole c p) =
  match guild (msg p) with
  | None => None
  | Some g =>
      match orElse (exec idMatcher s) (exec roleMentionMatcher s) with
      | Some idMatch => get (roles g) (group1 idMatch)
      | None => find (roles g) (fun role => string_eqb (role_name role) s)
      end
  end.
Proof.
  intros H Hs. apply consume_some in H as (p' & E & Hm & Hb).
  unfold resolveRole. rewrite E, Hm.
  destruct s as [|x s]; [congruence|].
  destruct (guild (msg p)); [|reflexivity].
  destruct (orElse _ _); reflexivity.
Qed.

Lemma firstn_one_skipn {A} (n : nat) (l : list A) (d : A) :
  n < length l -> firstn 1 (skipn n l) = [nth n l d].
Proof.
  revert l; induction n as [|n IH]; intros [|x l] H; simpl in *; try lia;
    auto with arith.
Qed.

(** [slice(-5, -4)] is the 5th character from the end. *)
Lemma hasDiscrim_fifthFromEnd (s : jsstring) :
  hasDiscrim s = fifthFromEndIsHash s.
Proof.
  unfold hasDiscrim, fifthFromEndIsHash.
  destruct (Nat.ltb_spec 5 (length s)) as [L|L]; [|reflexivity].
  simpl andb. unfold slice, relIndex.
  change (-4 <? 0)%Z with true. change (-5 <? 0)%Z with true. cbv iota.
  replace (Z.to_nat (Z.max (Z.of_nat (length s) + -4) 0 -
                     Z.max (Z.of_nat (length s) + -5) 0)) with 1 by lia.
  replace (Z.to_nat (Z.max (Z.of_nat (length s) + -5) 0))
    with (length s - 5) by lia.
  rewrite (@firstn_one_skipn _ (length s - 5) s 0%N) by lia.
  simpl. apply andb_true_r.
Qed.

Lemma isDigit_LT : isDigit LT = false.
Proof. reflexivity. Qed.

Lemma digits_app (a b : jsstring) :
  forallb isDigit (a ++ b) = true ->
  forallb isDigit a = true /\ forallb isDigit b = true.
Proof. rewrite forallb_app, andb_true_iff; auto. Qed.

(** A string of digits holds no mention. *)
Lemma digits_no_mention (k : kind) (s : jsstring) :
  forallb isDigit s = true -> ~ contains k s.
Proof.
  intros H (pre & tag & ds & post & _ & _ & ->).
  apply digits_app in H as [_ H]. discriminate.
Qed.

(** A string that holds a mention is not a bare ID. *)
Lemma contains_not_id (k : kind) (s : jsstring) : contains k s -> ~ isId s.
Proof.
  intros H [Hd _]. exact (digits_no_mention Hd H).
Qed.

Lemma orElse_id_mention (k : kind) (s : jsstring) :
  ~ isId s -> orElse (exec idMatcher s) (exec (matcher k) s)
              = exec (matcher k) s.
Proof.
  intros H. apply exec_idMatcher_none in H. rewrite H. reflexivity.
Qed.

Lemma find_first {V} (c : Collection V) (pred : V -> bool) (v : V) :
  find c pred = Some v ->
  firstMatch c (fun x => pred x = true) v.
Proof.
  induction c as [|[k x] c IH]; simpl; [discriminate|].
  destruct (pred x) eqn:E.
  - intros [= <-]. exists [], k, c.
    split; [reflexivity|]. split; [exact E|]. intros kv [].
  - intros H. destruct (IH H) as (before & k' & after & -> & Hv & Hb).
    exists ((k, x) :: before), k', after.
    split; [reflexivity|]. split; [exact Hv|].
    intros kv [<-|Hin]; [simpl; congruence | auto].
Qed.

Lemma find_none {V} (c : Collection V) (pred : V -> bool) :
  find c pred = None <-> forall kv, In kv c -> pred (snd kv) = false.
Proof.
  induction c as [|[k x] c IH]; simpl.
  - split; [intros _ kv [] | reflexivity].
  - destruct (pred x) eqn:E; split.
    + discriminate.
    + intros H. specialize (H (k, x) (or_introl eq_refl)). simpl in H.
      congruence.
    + intros H kv [<-|Hin]; [exact E | apply (proj1 IH H), Hin].
    + intros H. apply IH. intros kv Hin. apply H. auto.
Qed.

Lemma firstMatch_iff {V} (c : Collection V) (P Q : V -> Prop) (v : V) :
  (forall x, P x <-> Q x) -> firstMatch c P v -> firstMatch c Q v.
Proof.
  intros E (before & k & after & -> & Hv & Hb).
  exists before, k, after.
  split; [reflexivity|]. split; [apply E, Hv|].
  intros kv Hin HQ. apply (Hb kv Hin), E, HQ.
Qed.

Lemma string_eqb_false (a b : jsstring) : string_eqb a b = false <-> a <> b.
Proof.
  rewrite <- string_eqb_eq. destruct (string_eqb a b); split;
    congruence.
Qed.

Lemma hashFifth_fifthFromEnd (s : jsstring) :
  fifthFromEndIsHash s = true <-> hashFifth s.
Proof.
  unfold fifthFromEndIsHash, hashFifth.
  rewrite andb_true_iff, Nat.ltb_lt, N.eqb_eq. split; intros [L H].
  - split; [exact L|].
    rewrite (@nth_error_nth' _ s (length s - 5) 0%N) by lia. congruence.
  - split; [exact L|].
    rewrite (@nth_error_nth' _ s (length s - 5) 0%N) in H by lia. congruence.
Qed.

(** C8 (amended): when the consumed string is not empty, is no bare ID and
    holds no user mention, the user [resolveUser] returns is the first one of
    the cache that passes this test: [username#discriminator] is the whole
    string, when the string is longer than 5 and its 5th character from the
    end is [#]; [username] is the whole string, otherwise.  It returns
    nothing exactly when no cached user passes the test. *)
Theorem resolveUser_discriminator_rule (c : bool) (p : ArgParser)
        (s : jsstring) :
  consumedText c (args p) = Some s -> s <> [] ->
  ~ isId s -> ~ contains KUser s ->
  (forall u,
      fst (resolveUser c p) = Some u ->
      firstMatch (users (bot p))
        (fun x => (hashFifth s /\
                   username x ++ [HASH] ++ discriminator x = s) \/
                  (~ hashFifth s /\ username x = s)) u) /\
  (fst (resolveUser c p) = None <->
   forall kv, In kv (users (bot p)) ->
              ~ ((hashFifth s /\
                  username (snd kv) ++ [HASH] ++ discriminator (snd kv) = s) \/
                 (~ hashFifth s /\ username (snd kv) = s))).
Proof.
  intros H Hs Hid Hm. rewrite <- consume_text in H.
  rewrite (resolveUser_nonempty c p H Hs).
  apply exec_idMatcher_none in Hid.
  apply (exec_mention_none KUser) in Hm. simpl matcher in Hm.
  rewrite Hid, Hm. simpl orElse. rewrite hasDiscrim_fifthFromEnd.
  pose proof (hashFifth_fifthFromEnd s) as HF.
  destruct (fifthFromEndIsHash s).
  - assert (Y : hashFifth s) by (apply HF; reflexivity).
    split.
    + intros u F. apply find_first in F.
      eapply firstMatch_iff; [|exact F].
      intros x. rewrite string_eqb_eq. tauto.
    + rewrite find_none. split; intros F kv Hin; specialize (F kv Hin).
      * apply string_eqb_false in F. tauto.
      * apply string_eqb_false. tauto.
  - assert (N : ~ hashFifth s) by (intros Y; apply HF in Y; discriminate).
    split.
    + intros u F. apply find_first in F.
      eapply firstMatch_iff; [|exact F].
      intros x. rewrite string_eqb_eq. tauto.
    + rewrite find_none. split; intros F kv Hin; specialize (F kv Hin).
      * apply string_eqb_false in F. tauto.
      * apply string_eqb_false. tauto.
Qed.

Lemma resolveUser_discriminator_rule_witness :
  hashFifth (lit "Jane#0001") /\
  fst (resolveUser false (Sample.direct [lit "Jane#0001"; lit "x"]))
  = Some Sample.jane /\
  firstMatch (users Sample.client)
    (fun x => (hashFifth (lit "Jane#0001") /\
               username x ++ [HASH] ++ discriminator x = lit "Jane#0001") \/
              (~ hashFifth (lit "Jane#0001") /\
               username x = lit "Jane#0001"))
    Sample.jane.
Proof.
  assert (E : fst (resolveUser false
                     (Sample.direct [lit "Jane#0001"; lit "x"]))
              = Some Sample.jane) by reflexivity.
  split; [split; [simpl; lia | reflexivity]|]. split; [exact E|].
  refine (proj1 (@resolveUser_discriminator_rule false
                   (Sample.direct [lit "Jane#0001"; lit "x"])
                   (lit "Jane#0001") eq_refl _ _ _) Sample.jane E).
  - discriminate.
  - apply exec_idMatcher_none. vm_compute. reflexivity.
  - apply (exec_mention_none KUser). vm_compute. reflexivity.
Defined.

(** The rule fails as stated on the empty string: it is no ID, holds no
    mention and has no [#], a cached user has the empty string as username,
    and [resolveUser] returns nothing, because an empty consumed string is
    answered before any lookup. *)
Lemma resolveUser_empty_string_counterexample :
  consumedText false (args (Sample.ghostParser [[]])) = Some [] /\
  ~ isId [] /\ ~ contains KUser [] /\ ~ hashFifth [] /\
  firstMatch (users (bot (Sample.ghostParser [[]])))
             (fun x => username x = []) Sample.ghost /\
  fst (resolveUser false (Sample.ghostParser [[]])) = None.
Proof.
  split; [reflexivity|].
  split; [intros [_ L]; simpl in L; lia|].
  split; [intros (pre & tag & ds & post & _ & _ & E);
          destruct pre; discriminate|].
  split; [intros [L _]; simpl in L; lia|].
  split; [|reflexivity].
  exists [], Sample.id1, []. split; [reflexivity|].
  split; [reflexivity|]. intros kv [].
Qed.

(** C9: the bare-ID pattern matches exactly the strings of 15 to 21
    characters of [0-9], and then the resolvers look the whole string up as
    an ID; a non-empty string of digits that is shorter or longer goes to the
    lookup by name (in the guild, for channels and roles). *)
Theorem idMatcher_exact_and_fallthrough :
  (forall s, (exists m, exec idMatcher s = Some m) <-> isId s) /\
  (forall c p s,
      fst (consume c p) = Some s -> isId s ->
      fst (resolveUser c p) = get (users (bot p)) s /\
      fst (resolveChannel c p) = getChannel (bot p) s /\
      fst (resolveRole c p) =
      match guild (msg p) with
      | None => None
      | Some g => get (roles g) s
      end) /\
  (forall c p s,
      fst (consume c p) = Some s -> s <> [] ->
      forallb isDigit s = true -> length s < 15 \/ 21 < length s ->
      fst (resolveUser c p) =
      find (users (bot p)) (fun user => string_eqb (username user) s) /\
      fst (resolveChannel c p) =
      match guild (msg p) with
      | None => None
      | Some g =>
          find (channels g) (fun channel => string_eqb (channel_name channel) s)
      end /\
      fst (resolveRole c p) =
      match guild (msg p) with
      | None => None
      | Some g => find (roles g) (fun role => string_eqb (role_name role) s)
      end).
Proof.
  split; [|split].
  - intros s. split.
    + intros [m H]. apply exec_idMatcher in H. tauto.
    + intros H. eexists. apply exec_idMatcher. eauto.
  - intros c p s H Hid.
    assert (Hs : s <> [])
      by (intros ->; destruct Hid as [_ L]; simpl in L; lia).
    assert (E : exec idMatcher s
                = Some {| index := 0; whole := s; group1 := s |})
      by (apply exec_idMatcher; auto).
    rewrite (resolveUser_nonempty _ _ H Hs), (resolveChannel_nonempty _ _ H Hs),
      (resolveRole_nonempty _ _ H Hs), E.
    simpl. repeat split.
  - intros c p s H Hs Hd Hl.
    assert (Hid : exec idMatcher s = None)
      by (apply exec_idMatcher_none; intros [_ L]; lia).
    assert (Hm : forall k, exec (matcher k) s = None)
      by (intros k; apply exec_mention_none, digits_no_mention, Hd).
    rewrite (resolveUser_nonempty _ _ H Hs), (resolveChannel_nonempty _ _ H Hs),
      (resolveRole_nonempty _ _ H Hs), Hid.
    pose proof (Hm KUser) as Hu. pose proof (Hm KChannel) as Hc.
    pose proof (Hm KRole) as Hr. simpl matcher in Hu, Hc, Hr.
    rewrite Hu, Hc, Hr. simpl orElse.
    assert (Hh : hasDiscrim s = false).
    { rewrite hasDiscrim_fifthFromEnd. unfold fifthFromEndIsHash.
      destruct (Nat.ltb_spec 5 (length s)) as [L|L]; [|reflexivity].
      simpl. apply digit_not; [|reflexivity].
      apply (proj1 (forallb_forall isDigit s) Hd), nth_In. lia. }
    rewrite Hh. repeat split.
Qed.

Lemma idMatcher_exact_and_fallthrough_witness :
  ~ isId (lit "12345678901234") /\
  isId (lit "123456789012345678") /\
  fst (resolveUser false (Sample.direct [lit "123456789012345678"]))
  = Some Sample.jane /\
  fst (resolveUser false (Sample.direct [lit "12345678901234"])) = None.
Proof.
  destruct idMatcher_exact_and_fallthrough as (H1 & H2 & H3).
  assert (Hid : isId (lit "123456789012345678"))
    by (split; [reflexivity | simpl; lia]).
  split; [|split; [exact Hid|split]].
  - intros H. apply H1 in H as [m H]. vm_compute in H. discriminate.
  - destruct (H2 false (Sample.direct [lit "123456789012345678"])
                (lit "123456789012345678") eq_refl Hid) as (-> & _).
    reflexivity.
  - destruct (H3 false (Sample.direct [lit "12345678901234"])
                (lit "12345678901234") eq_refl) as (-> & _).
    + discriminate.
    + reflexivity.
    + left. simpl. lia.
    + reflexivity.
Defined.

(** C10: the mention patterns are not anchored.  When the consumed string
    holds a mention of the resolver's kind anywhere, the resolver looks up
    the ID of the leftmost such mention: in the user cache for
    [resolveUser], through the client for [resolveChannel], and in the roles
    of the guild for [resolveRole]. *)
Theorem mention_anywhere_is_id_lookup (c : bool) (p : ArgParser)
        (k : kind) (s : jsstring) :
  fst (consume c p) = Some s -> contains k s ->
  exists id,
    firstMention k s id /\
    match k with
    | KUser => fst (resolveUser c p) = get (users (bot p)) id
    | KChannel => fst (resolveChannel c p) = getChannel (bot p) id
    | KRole =>
        fst (resolveRole c p) =
        match guild (msg p) with
        | None => None
        | Some g => get (roles g) id
        end
    end.
Proof.
  intros H Hc.
  assert (Hs : s <> []).
  { destruct Hc as (pre & tag & ds & post & _ & _ & ->).
    destruct pre; discriminate. }
  destruct (contains_exec Hc) as [m Hm].
  assert (Ho : orElse (exec idMatcher s) (exec (matcher k) s) = Some m)
    by (rewrite (orElse_id_mention k (contains_not_id Hc)); exact Hm).
  apply exec_mention_some in Hm
    as (pre & tag & ds & post & Ht & Hid & E & -> & Least).
  exists ds. split; [exists pre, tag, post; auto|].
  destruct k; simpl matcher in Ho.
  - rewrite (resolveUser_nonempty _ _ H Hs), Ho. reflexivity.
  - rewrite (resolveChannel_nonempty _ _ H Hs), Ho. reflexivity.
  - rewrite (resolveRole_nonempty _ _ H Hs), Ho.
    destruct (guild (msg p)); reflexivity.
Qed.

Lemma mention_anywhere_is_id_lookup_witness :
  exists id,
    firstMention KUser (lit "abc<@123456789012345678>def") id /\
    fst (resolveUser false
           (Sample.direct [lit "abc<@123456789012345678>def"]))
    = get (users Sample.client) id.
Proof.
  apply (@mention_anywhere_is_id_lookup false
           (Sample.direct [lit "abc<@123456789012345678>def"]) KUser
           (lit "abc<@123456789012345678>def")).
  - reflexivity.
  - exists (lit "abc"), [AT], (lit "123456789012345678"), (lit "def").
    split; [left; reflexivity|].
    split; [split; [reflexivity | simpl; lia] | reflexivity].
Defined.

End Resolvers.

(** ** The last step of cleanContent: [@everyone] and [@here] *)

Section EveryoneHere.

Lemma insertAt_cons (i : nat) (z x : code_unit) (s : jsstring) :
  insertAt (S i) z (x :: s) = x :: insertAt i z s.
Proof. reflexivity. Qed.

(** Two insertions commute when the positions are shifted accordingly. *)
Lemma insertAt_comm (a b : nat) (z : code_unit) (s : jsstring) :
  a <= b -> insertAt (S b) z (insertAt a z s) = insertAt a z (insertAt b z s).
Proof.
  revert b s; induction a as [|a IH]; intros b s L.
  - reflexivity.
  - destruct b as [|b]; [lia|]. destruct s as [|x s].
    + unfold insertAt. simpl. rewrite firstn_nil, skipn_nil. reflexivity.
    + rewrite !insertAt_cons. f_equal. apply IH. lia.
Qed.

(** Replacing [@rest] by [@], U+200B, [rest] inserts one character after the
    [@] of the first occurrence. *)
Lemma replace_inserts (rest s : jsstring) :
  ~ In DOLLAR rest ->
  replace s (AT :: rest) (AT :: ZWSP :: rest) =
  match indexOf (AT :: rest) s with
  | None => s
  | Some i => insertAt (S i) ZWSP s
  end.
Proof.
  intros Hr. unfold replace.
  destruct (indexOf (AT :: rest) s) as [i|] eqn:E; [|reflexivity].
  rewrite getSubstitution_literal
    by (simpl; intros [H|[H|H]]; [discriminate | discriminate | tauto]).
  destruct (indexOf_split _ _ E) as [H L].
  assert (LA : length (firstn i s) = i) by (apply firstn_length_le; lia).
  unfold insertAt at 1.
  remember (firstn i s) as A eqn:EA.
  remember (skipn (i + length (AT :: rest)) s) as B eqn:EB.
  clear EA EB E L. subst s i. unfold insertAt.
  replace (S (length A)) with (length (A ++ [AT]))
    by (rewrite length_app; simpl; lia).
  change (A ++ (AT :: rest) ++ B) with (A ++ [AT] ++ rest ++ B).
  rewrite (app_assoc A [AT] (rest ++ B)), firstn_exact, skipn_exact.
  rewrite <- app_assoc. reflexivity.
Qed.

Lemma replace_everyone_cons (c : code_unit) (s : jsstring) :
  replace (c :: s) (lit "@everyone") (AT :: ZWSP :: lit "everyone") =
  if prefixb (lit "@everyone") (c :: s) then AT :: ZWSP :: s
  else c :: replace s (lit "@everyone") (AT :: ZWSP :: lit "everyone").
Proof.
  change (lit "@everyone") with (AT :: lit "everyone").
  rewrite !replace_inserts by (vm_compute; intuition discriminate).
  rewrite indexOf_cons.
  destruct (prefixb _ (c :: s)) eqn:P.
  - apply prefixb_split in P. injection P as -> _. reflexivity.
  - destruct (indexOf _ s); reflexivity.
Qed.

(** A pattern without [@] starts the cleaned string exactly when it starts
    the original one. *)
Lemma prefixb_replace_everyone (q s : jsstring) :
  ~ In AT q -> ~ In ZWSP q ->
  prefixb q (replace s (lit "@everyone") (AT :: ZWSP :: lit "everyone"))
  = prefixb q s.
Proof.
  revert s; induction q as [|x q IH]; intros s Ha Hz; [reflexivity|].
  destruct s as [|c s]; [reflexivity|].
  rewrite replace_everyone_cons.
  destruct (prefixb (lit "@everyone") (c :: s)) eqn:P.
  - apply prefixb_split in P. injection P as -> _.
    assert (N : (x =? AT)%N = false)
      by (apply N.eqb_neq; intros ->; simpl in Ha; tauto).
    unfold AT in *. simpl prefixb. rewrite N. reflexivity.
  - simpl. rewrite IH by (simpl in *; tauto). reflexivity.
Qed.

(** Where the first [@here] is once the first [@everyone] has been cleaned:
    at the same place when it comes before, one further otherwise. *)
Lemma indexOf_here_after_everyone (s : jsstring) :
  indexOf (lit "@here")
          (replace s (lit "@everyone") (AT :: ZWSP :: lit "everyone")) =
  match indexOf (lit "@everyone") s with
  | None => indexOf (lit "@here") s
  | Some i =>
      option_map (fun j => if j <? i then j else S j) (indexOf (lit "@here") s)
  end.
Proof.
  induction s as [|c s IH]; [reflexivity|].
  rewrite replace_everyone_cons, (indexOf_cons (lit "@everyone")).
  destruct (prefixb (lit "@everyone") (c :: s)) eqn:P.
  - apply prefixb_split in P. injection P as -> P.
    destruct s as [|e s1]; [discriminate P|]. injection P as -> _.
    rewrite (indexOf_cons (lit "@here") _ (ZWSP :: _)),
      (indexOf_cons (lit "@here") ZWSP),
      (indexOf_cons (lit "@here") _ (_ :: s1)).
    simpl prefixb. cbv iota.
    destruct (indexOf (lit "@here") _); reflexivity.
  - rewrite !(indexOf_cons (lit "@here")).
    assert (Q : prefixb (lit "@here")
                  (c :: replace s (lit "@everyone")
                          (AT :: ZWSP :: lit "everyone"))
                = prefixb (lit "@here") (c :: s)).
    { change (lit "@here") with (AT :: lit "here").
      rewrite !prefixb_cons. f_equal. apply prefixb_replace_everyone;
        vm_compute; intuition discriminate. }
    rewrite Q, IH.
    destruct (prefixb (lit "@here") (c :: s)).
    + destruct (indexOf (lit "@everyone") s); reflexivity.
    + destruct (indexOf (lit "@everyone") s) as [i|]; [|reflexivity].
      destruct (indexOf (lit "@here") s) as [j|]; [|reflexivity].
      simpl. change (S j <? S i) with (j <? i).
      destruct (j <? i); reflexivity.
Qed.

(** The last step in terms of [indexOf]. *)
Lemma cleanEveryoneHere_by_indexOf (s : jsstring) :
  cleanEveryoneHere s =
  zwspAfter (indexOf (lit "@everyone") s) (indexOf (lit "@here") s) s.
Proof.
  unfold cleanEveryoneHere, zwspAfter.
  pose proof (indexOf_here_after_everyone s) as G.
  assert (R1 : forall t,
             replace t (lit "@everyone") (AT :: ZWSP :: lit "everyone") =
             match indexOf (lit "@everyone") t with
             | None => t
             | Some i => insertAt (S i) ZWSP t
             end)
    by (intros t; apply (@replace_inserts (lit "everyone"));
        vm_compute; intuition discriminate).
  assert (R2 : forall t,
             replace t (lit "@here") (AT :: ZWSP :: lit "here") =
             match indexOf (lit "@here") t with
             | None => t
             | Some i => insertAt (S i) ZWSP t
             end)
    by (intros t; apply (@replace_inserts (lit "here"));
        vm_compute; intuition discriminate).
  rewrite R2, G, R1.
  destruct (indexOf (lit "@everyone") s) as [i|]; [|reflexivity].
  destruct (indexOf (lit "@here") s) as [j|]; [|reflexivity].
  simpl option_map. cbv iota beta.
  destruct (Nat.ltb_spec j i); [reflexivity|].
  apply insertAt_comm. lia.
Qed.

(** [indexOf] finds the first occurrence. *)
Lemma firstAt_indexOf (pat s : jsstring) : firstAt pat s (indexOf pat s).
Proof.
  destruct (indexOf pat s) as [i|] eqn:E; simpl.
  - destruct (indexOf_split _ _ E) as [Sp Bd].
    exists (firstn i s), (skipn (i + length pat) s).
    split; [exact Sp|]. split; [apply firstn_length_le; lia|].
    intros pre' post' E'.
    destruct (indexOf_occurs pat pre' post') as (i' & Ei & Li).
    rewrite <- E' in Ei. congruence.
  - apply indexOf_none, E.
Qed.

Lemma firstAt_unique (pat s : jsstring) (o1 o2 : option nat) :
  firstAt pat s o1 -> firstAt pat s o2 -> o1 = o2.
Proof.
  destruct o1 as [i|], o2 as [j|]; simpl; intros H1 H2.
  - destruct H1 as (pre1 & post1 & E1 & L1 & M1).
    destruct H2 as (pre2 & post2 & E2 & L2 & M2).
    specialize (M1 _ _ E2). specialize (M2 _ _ E1). f_equal. lia.
  - destruct H1 as (pre1 & post1 & E1 & _). exfalso. exact (H2 _ _ E1).
  - destruct H2 as (pre2 & post2 & E2 & _). exfalso. exact (H1 _ _ E2).
  - reflexivity.
Qed.

Lemma cleanEveryoneHere_firstAt (t : jsstring) (oi oj : option nat) :
  firstAt (lit "@everyone") t oi -> firstAt (lit "@here") t oj ->
  cleanEveryoneHere t = zwspAfter oi oj t.
Proof.
  intros Hi Hj. rewrite cleanEveryoneHere_by_indexOf.
  rewrite (@firstAt_unique _ t _ oi (firstAt_indexOf _ _) Hi).
  rewrite (@firstAt_unique _ t _ oj (firstAt_indexOf _ _) Hj).
  reflexivity.
Qed.

(** C6: every call of [cleanContent] that returns a string returns the
    string [t] left by the three loops with U+200B inserted after the [@] of
    the first [@everyone] of [t] and after the [@] of the first [@here] of
    [t], once each and nowhere else, with or without a guild; conversely,
    when the loops end with [t] that is what the call returns; and
    [cleanContent(true)] on the tokens [@everyone], [ping] returns
    [@], U+200B, [everyone ping]. *)
Theorem cleanContent_everyone_here_first_occurrences :
  (forall fuel c p r,
      fst (cleanContent fuel c p) = Normal (Some r) ->
      exists s a1 a2 t oi oj,
        consumedText c (args p) = Some s /\ s <> [] /\
        cleanUsers fuel p s = Normal a1 /\
        cleanChannels fuel p a1 = Normal a2 /\
        cleanRoles fuel p a2 = Normal t /\
        firstAt (lit "@everyone") t oi /\ firstAt (lit "@here") t oj /\
        r = zwspAfter oi oj t) /\
  (forall fuel c p s a1 a2 t oi oj,
      consumedText c (args p) = Some s -> s <> [] ->
      cleanUsers fuel p s = Normal a1 ->
      cleanChannels fuel p a1 = Normal a2 ->
      cleanRoles fuel p a2 = Normal t ->
      firstAt (lit "@everyone") t oi -> firstAt (lit "@here") t oj ->
      fst (cleanContent fuel c p) = Normal (Some (zwspAfter oi oj t))) /\
  (forall fuel,
      fst (cleanContent fuel true
             (Sample.direct [lit "@everyone"; lit "ping"]))
      = Normal (Some (AT :: ZWSP :: lit "everyone ping"))).
Proof.
  split; [|split].
  - intros fuel c p r. rewrite cleanContent_unfold.
    destruct (consumedText c (args p)) as [[|x s]|]; try discriminate.
    destruct (cleanUsers fuel p (x :: s)) as [a1| |] eqn:U; try discriminate.
    simpl bind.
    destruct (cleanChannels fuel p a1) as [a2| |] eqn:C; try discriminate.
    simpl bind.
    destruct (cleanRoles fuel p a2) as [t| |] eqn:R; try discriminate.
    simpl bind. intros [= <-].
    exists (x :: s), a1, a2, t, (indexOf (lit "@everyone") t),
      (indexOf (lit "@here") t).
    repeat (split; [first [reflexivity | discriminate | assumption
                           | apply firstAt_indexOf]|]).
    apply cleanEveryoneHere_by_indexOf.
  - intros fuel c p s a1 a2 t oi oj H Hs U C R Hi Hj.
    rewrite cleanContent_unfold, H.
    destruct s as [|x s]; [congruence|].
    rewrite U. simpl bind. rewrite C. simpl bind. rewrite R. simpl bind.
    rewrite (@cleanEveryoneHere_firstAt t oi oj Hi Hj). reflexivity.
  - intros [|fuel]; vm_compute; reflexivity.
Qed.

Lemma cleanContent_everyone_here_first_occurrences_witness :
  fst (cleanContent 1 true
         (Sample.inGuild Sample.guild2
            [lit "@here"; lit "<#111111111111111111>"; lit "@everyone";
             lit "@everyone"]))
  = Normal (Some (AT :: ZWSP :: lit "here #general @"
                     ++ ZWSP :: lit "everyone @everyone")).
Proof.
  destruct cleanContent_everyone_here_first_occurrences as (_ & H & _).
  apply (H 1 true
           (Sample.inGuild Sample.guild2
              [lit "@here"; lit "<#111111111111111111>"; lit "@everyone";
               lit "@everyone"])
           (lit "@here <#111111111111111111> @everyone @everyone")
           (lit "@here <#111111111111111111> @everyone @everyone")
           (lit "@here #general @everyone @everyone")
           (lit "@here #general @everyone @everyone")
           (Some 15) (Some 0)).
  - reflexivity.
  - discriminate.
  - reflexivity.
  - reflexivity.
  - reflexivity.
  - exact (firstAt_indexOf (lit "@everyone")
             (lit "@here #general @everyone @everyone")).
  - exact (firstAt_indexOf (lit "@here")
             (lit "@here #general @everyone @everyone")).
Defined.

End EveryoneHere.

(** ** Rewriting the mentions *)

Section Mentions.

Lemma contains_starts (k : kind) (s : jsstring) :
  contains k s <-> exists pre t, s = pre ++ t /\ starts k t.
Proof.
  split.
  - intros (pre & tag & ds & post & Ht & Hid & ->).
    exists pre, (mentionText tag ds ++ post). split; [reflexivity|].
    exists tag, ds, post; auto.
  - intros (pre & t & -> & tag & ds & post & Ht & Hid & ->).
    exists pre, tag, ds, post; auto.
Qed.

Lemma starts_contains (k : kind) (t : jsstring) : starts k t -> contains k t.
Proof.
  intros H. apply contains_starts. exists [], t; auto.
Qed.

Lemma contains_cons (k : kind) (c : code_unit) (s : jsstring) :
  contains k (c :: s) <-> starts k (c :: s) \/ contains k s.
Proof.
  rewrite !contains_starts. split.
  - intros ([|x pre] & t & E & H).
    + simpl in E; subst t. auto.
    + injection E as -> ->. right; eauto.
  - intros [H | (pre & t & -> & H)].
    + exists [], (c :: s); auto.
    + exists (c :: pre), t; auto.
Qed.

Lemma contains_app_r (k : kind) (pre s : jsstring) :
  contains k s -> contains k (pre ++ s).
Proof.
  induction pre as [|c pre IH]; intros H; [exact H|].
  simpl. apply contains_cons. right; auto.
Qed.

Lemma starts_app (k : kind) (t u : jsstring) : starts k t -> starts k (t ++ u).
Proof.
  intros (tag & ds & post & Ht & Hid & ->).
  exists tag, ds, (post ++ u). rewrite app_assoc. auto.
Qed.

Lemma starts_LT (k : kind) (c : code_unit) (t : jsstring) :
  starts k (c :: t) -> c = LT.
Proof.
  intros (tag & ds & post & _ & _ & E). injection E as -> _. reflexivity.
Qed.

Lemma contains_nil (k : kind) : ~ contains k [].
Proof.
  intros (pre & tag & ds & post & _ & _ & E).
  destruct pre; discriminate.
Qed.

(** A text without [<] put in front holds no mention of its own. *)
Lemma contains_plain_app (k : kind) (r post : jsstring) :
  ~ In LT r -> contains k (r ++ post) -> contains k post.
Proof.
  induction r as [|c r IH]; intros Hr H; [exact H|].
  simpl in H. apply contains_cons in H as [H|H].
  - apply starts_LT in H. simpl in Hr. tauto.
  - apply IH; [simpl in Hr; tauto | exact H].
Qed.

Lemma digit_chars (ds : jsstring) (c : code_unit) :
  forallb isDigit ds = true -> In c ds -> isDigit c = true.
Proof. intros H. apply (proj1 (forallb_forall isDigit ds) H). Qed.

(** After its first character, a tag, ID and [>] hold none of [@], [#],
    [<]. *)
Lemma mention_tail_chars (k : kind) (tag ds : jsstring) (c : code_unit) :
  isTag k tag -> isId ds -> In c (tl (tag ++ ds ++ [GT])) ->
  c <> AT /\ c <> HASH /\ c <> LT.
Proof.
  intros Ht [Hd _] Hc.
  assert (D : In c (ds ++ [GT]) -> c <> AT /\ c <> HASH /\ c <> LT).
  { intros H. apply in_app_or in H as [H|[<-|[]]].
    - apply (@digit_chars ds c Hd) in H.
      repeat split; intros ->; discriminate.
    - repeat split; discriminate. }
  destruct k; simpl in Ht.
  - destruct Ht as [-> | ->]; simpl in Hc; [auto|].
    destruct Hc as [<-|Hc]; [repeat split; discriminate | auto].
  - subst tag. simpl in Hc. auto.
  - subst tag. simpl in Hc.
    destruct Hc as [<-|Hc]; [repeat split; discriminate | auto].
Qed.

Lemma mention_head_char (k : kind) (tag : jsstring) :
  isTag k tag -> exists c rest, tag = c :: rest /\ c <> LT.
Proof.
  destruct k; simpl.
  - intros [-> | ->]; do 2 eexists; split; try reflexivity; discriminate.
  - intros ->; do 2 eexists; split; try reflexivity; discriminate.
  - intros ->; do 2 eexists; split; try reflexivity; discriminate.
Qed.

Lemma mention_body_plain (k : kind) (tag ds : jsstring) :
  isTag k tag -> isId ds -> ~ In LT (tag ++ ds ++ [GT]).
Proof.
  intros Ht Hid H.
  destruct (mention_head_char k tag Ht) as (c & rest & E & Hc).
  pose proof (@mention_tail_chars k tag ds LT Ht Hid) as T.
  rewrite E in H, T. simpl in H, T. destruct H as [H|H]; [congruence|].
  apply T in H. tauto.
Qed.

(** A mention that begins in [q] and would reach into a replacement text
    that opens with [@] or [#] lies within [q]. *)
Lemma starts_local (k : kind) (q n post : jsstring) (c0 : code_unit) :
  starts k (q ++ (c0 :: n) ++ post) -> q <> [] ->
  c0 = AT \/ c0 = HASH -> cannotComplete k (c0 :: n) ->
  forall u, starts k (q ++ u).
Proof.
  intros (tag & ds & post' & Ht & Hid & E) Hq Hc0 Hcc u.
  apply app_eq_app in E as [l [[-> E] | [E1 E2]]].
  - rewrite <- app_assoc. exists tag, ds, (l ++ u); auto.
  - destruct l as [|c l'].
    + rewrite app_nil_r in E1. subst q. exists tag, ds, u; auto.
    + exfalso. injection E2 as <- E2.
      destruct q as [|y q0]; [congruence|].
      unfold mentionText in E1. injection E1 as <- E1.
      destruct q0 as [|z q0'].
      * simpl in E1. apply (Hcc post). exists tag, ds, post'.
        split; [exact Ht|]. split; [exact Hid|].
        unfold mentionText. simpl. f_equal.
        rewrite E1. simpl. f_equal. exact E2.
      * assert (T : In c0 (tl (tag ++ ds ++ [GT])))
          by (rewrite E1; simpl; apply in_or_app; right; left; reflexivity).
        apply (@mention_tail_chars k tag ds c0 Ht Hid) in T. tauto.
Qed.

(** Putting a text without [<] that opens with [@] or [#] in the place of
    any text does not bring a mention of kind [k] about, when the text
    cannot complete one. *)
Lemma replace_keeps_clean (k : kind) (pre M n post : jsstring)
      (c0 : code_unit) :
  ~ contains k (pre ++ M ++ post) ->
  c0 = AT \/ c0 = HASH -> ~ In LT n -> cannotComplete k (c0 :: n) ->
  ~ contains k (pre ++ (c0 :: n) ++ post).
Proof.
  intros H Hc0 Hn Hcc. induction pre as [|c pre IH]; intros C.
  - apply H. simpl. apply contains_app_r.
    apply (@contains_plain_app k (c0 :: n)); [|exact C].
    simpl. intros [E|E]; [|tauto].
    destruct Hc0; subst c0; discriminate.
  - simpl in C, H. apply contains_cons in C as [C|C].
    + apply H, starts_contains.
      apply (@starts_local k (c :: pre) n post c0 C); auto. discriminate.
    + apply IH; [|exact C]. intros C'. apply H, contains_cons. auto.
Qed.

Lemma cannotComplete_hash_user (n : jsstring) :
  cannotComplete KUser (HASH :: n).
Proof.
  intros post (tag & ds & post' & Ht & _ & E).
  destruct Ht as [-> | ->]; discriminate.
Qed.

Lemma cannotComplete_at_channel (n : jsstring) :
  cannotComplete KChannel (AT :: n).
Proof.
  intros post (tag & ds & post' & Ht & _ & E).
  simpl in Ht; subst tag; discriminate.
Qed.

Lemma cannotComplete_at_user (x : code_unit) (n : jsstring) :
  isDigit x = false -> x <> BANG -> cannotComplete KUser (AT :: x :: n).
Proof.
  intros Hx Hb post (tag & ds & post' & Ht & Hid & E).
  destruct (isId_head Hid) as (d & ds' & -> & Hd).
  destruct Ht as [-> | ->]; injection E as E; congruence.
Qed.

Lemma cannotComplete_at_role (x : code_unit) (n : jsstring) :
  x <> AMP -> cannotComplete KRole (AT :: x :: n).
Proof.
  intros Hx post (tag & ds & post' & Ht & Hid & E).
  simpl in Ht; subst tag. injection E as E. congruence.
Qed.

Lemma countLT_app (a b : jsstring) : countLT (a ++ b) = countLT a + countLT b.
Proof. apply count_occ_app. Qed.

Lemma countLT_plain (r : jsstring) : ~ In LT r -> countLT r = 0.
Proof. apply count_occ_not_In. Qed.

(** A mention holds exactly one [<]. *)
Lemma countLT_mention (k : kind) (tag ds : jsstring) :
  isTag k tag -> isId ds -> countLT (mentionText tag ds) = 1.
Proof.
  intros Ht Hid. unfold mentionText, countLT. simpl.
  f_equal. apply count_occ_not_In, (@mention_body_plain k tag ds Ht Hid).
Qed.

Lemma plainName_chars (n : jsstring) :
  plainName n = true -> ~ In LT n /\ ~ In DOLLAR n.
Proof.
  unfold plainName. intros H.
  split; intros C; apply (proj1 (forallb_forall _ n) H) in C; discriminate.
Qed.

(** One iteration: the matched mention is found by [replace], the
    replacement takes its place, and one [<] is gone. *)
Lemma rewrite_step (k : kind) (a t : jsstring) (m : matchResult) :
  exec (matcher k) a = Some m -> ~ In LT t -> ~ In DOLLAR t ->
  exists pre post,
    a = pre ++ whole m ++ post /\
    replace a (whole m) t = pre ++ t ++ post /\
    S (countLT (replace a (whole m) t)) = countLT a.
Proof.
  intros E Ht1 Ht2.
  apply exec_mention_some in E
    as (pre0 & tag & ds & post0 & Htag & Hid & Ea & -> & _).
  simpl whole.
  destruct (@replace_occurs a (mentionText tag ds) t pre0 post0 Ea Ht2)
    as (pre & post & E1 & E2 & _).
  exists pre, post. split; [exact E1|]. split; [exact E2|].
  rewrite E2.
  replace (countLT a) with (countLT (pre ++ mentionText tag ds ++ post))
    by (rewrite <- E1; reflexivity).
  rewrite !countLT_app.
  rewrite (@countLT_mention k tag ds Htag Hid), (@countLT_plain t Ht1). lia.
Qed.

Section Loop.

Variable k : kind.
Variable fmt : jsstring -> completion jsstring.
Variable keep : kind -> Prop.

Hypothesis fmt_plain :
  forall id, exists c0 n,
    fmt id = Normal (c0 :: n) /\ (c0 = AT \/ c0 = HASH) /\
    plainName n = true /\
    forall k', keep k' -> cannotComplete k' (c0 :: n).

(** With as much fuel as there are [<], the loop ends normally; its result
    holds no mention of kind [k], and none of the kinds that were absent
    before and that the replacements cannot complete. *)
Lemma rewriteLoop_ends (fuel : nat) (a : jsstring) :
  countLT a <= fuel ->
  (forall k', keep k' -> ~ contains k' a) ->
  exists r,
    rewriteLoop (matcher k) fmt fuel a = Normal r /\
    ~ contains k r /\
    (forall k', keep k' -> ~ contains k' r) /\
    countLT r <= countLT a.
Proof.
  revert a. induction fuel as [|fuel IH]; intros a Hf Hk.
  - simpl. destruct (exec (matcher k) a) as [m|] eqn:E.
    + exfalso. destruct (fmt_plain (group1 m))
        as (c0 & n & _ & Hc0 & Hn & _).
      apply plainName_chars in Hn as [Hn1 Hn2].
      destruct (@rewrite_step k a (c0 :: n) m E) as (_ & _ & _ & _ & C).
      * simpl. intros [F|F]; [destruct Hc0; subst; discriminate | tauto].
      * simpl. intros [F|F]; [destruct Hc0; subst; discriminate | tauto].
      * lia.
    + exists a. repeat split; auto. apply exec_mention_none, E.
  - simpl. destruct (exec (matcher k) a) as [m|] eqn:E.
    + destruct (fmt_plain (group1 m)) as (c0 & n & -> & Hc0 & Hn & Hcc).
      simpl bind.
      pose proof (@plainName_chars n Hn) as [Hn1 Hn2].
      destruct (@rewrite_step k a (c0 :: n) m E)
        as (pre & post & E1 & E2 & C).
      * simpl. intros [F|F]; [destruct Hc0; subst; discriminate | tauto].
      * simpl. intros [F|F]; [destruct Hc0; subst; discriminate | tauto].
      * destruct (IH (replace a (whole m) (c0 :: n)))
          as (r & R1 & R2 & R3 & R4).
        -- lia.
        -- intros k' Hk'. rewrite E2.
           apply (@replace_keeps_clean k' pre (whole m) n post c0); auto.
           rewrite <- E1. auto.
        -- exists r. repeat split; auto. lia.
    + exists a. repeat split; auto. apply exec_mention_none, E.
Qed.

End Loop.

End Mentions.

(** ** cleanContent in a guild with plain names *)

Section CleanContent.

Lemma cleanUsers_loop (fuel : nat) (p : ArgParser) (a : jsstring) :
  cleanUsers fuel p a =
  rewriteLoop userMentionMatcher (fun id => Normal (userReplacement p id))
              fuel a.
Proof.
  revert a; induction fuel as [|fuel IH]; intros a; simpl;
    destruct (exec userMentionMatcher a); auto.
Qed.

Lemma cleanChannels_loop (fuel : nat) (p : ArgParser) (g : Guild)
      (a : jsstring) :
  guild (msg p) = Some g ->
  cleanChannels fuel p a =
  rewriteLoop channelMentionMatcher
    (fun id => Normal match get (channels g) id with
                      | Some channel => HASH :: channel_name channel
                      | None => lit "#deleted-channel"
                      end)
    fuel a.
Proof.
  intros G. revert a; induction fuel as [|fuel IH]; intros a; simpl;
    destruct (exec channelMentionMatcher a); auto.
  rewrite G. simpl. apply IH.
Qed.

Lemma cleanRoles_loop (fuel : nat) (p : ArgParser) (g : Guild)
      (a : jsstring) :
  guild (msg p) = Some g ->
  cleanRoles fuel p a =
  rewriteLoop roleMentionMatcher
    (fun id => Normal match get (roles g) id with
                      | Some role => AT :: role_name role
                      | None => lit "@deleted-role"
                      end)
    fuel a.
Proof.
  intros G. revert a; induction fuel as [|fuel IH]; intros a; simpl;
    destruct (exec roleMentionMatcher a); auto.
  rewrite G. simpl. apply IH.
Qed.

Lemma get_forallb {V} (f : V -> bool) (c : Collection V) (id : jsstring)
      (v : V) :
  forallb (fun kv => f (snd kv)) c = true -> get c id = Some v -> f v = true.
Proof.
  induction c as [|[k x] c IH]; simpl; [discriminate|].
  rewrite andb_true_iff. intros [H1 H2].
  destruct (string_eqb k id); [intros [= <-]; exact H1 | auto].
Qed.

Lemma cannotComplete_zwsp (k : kind) (n : jsstring) :
  cannotComplete k (AT :: ZWSP :: n).
Proof.
  destruct k.
  - apply cannotComplete_at_user; [reflexivity | discriminate].
  - apply cannotComplete_at_channel.
  - apply cannotComplete_at_role. discriminate.
Qed.

(** Inserting U+200B after an [@] brings no mention about. *)
Lemma replace_zwsp_clean (k : kind) (a rest : jsstring) :
  ~ In LT rest -> ~ In DOLLAR rest -> ~ contains k a ->
  ~ contains k (replace a (AT :: rest) (AT :: ZWSP :: rest)).
Proof.
  intros Hl Hd H.
  destruct (indexOf (AT :: rest) a) as [i|] eqn:E;
    [|rewrite replace_absent by exact E; exact H].
  destruct (indexOf_split _ _ E) as [Ea _].
  destruct (@replace_occurs a (AT :: rest) (AT :: ZWSP :: rest) _ _ Ea)
    as (pre & post & E1 & -> & _).
  - simpl. intros [F|[F|F]]; [discriminate | discriminate | tauto].
  - apply (@replace_keeps_clean k pre (AT :: rest) (ZWSP :: rest) post AT).
    + rewrite <- E1. exact H.
    + auto.
    + simpl. intros [F|F]; [discriminate | tauto].
    + apply cannotComplete_zwsp.
Qed.

Lemma cleanEveryoneHere_clean (k : kind) (a : jsstring) :
  ~ contains k a -> ~ contains k (cleanEveryoneHere a).
Proof.
  intros H. unfold cleanEveryoneHere.
  change (lit "@here") with (AT :: lit "here").
  change (lit "@everyone") with (AT :: lit "everyone").
  apply replace_zwsp_clean; [| |apply replace_zwsp_clean; [| |exact H]];
    vm_compute; intuition discriminate.
Qed.

(** Why names must not hold [<]: when a member's nickname is a mention of
    that member, every replacement brings the mention back and the user loop
    never ends. *)
Lemma scan_self_mention (k i : nat) :
  scan userMentionMatcher i (repeat AT k ++ lit "<@111111111111111111>") =
  Some {| index := i + k; whole := lit "<@111111111111111111>";
          group1 := Sample.id1 |}.
Proof.
  revert i; induction k as [|k IH]; intros i.
  - assert (R : run (matcher KUser) (Nat.eqb i 0)
                    (mentionText [AT] Sample.id1 ++ [])
                = Some (mentionText [AT] Sample.id1, Some Sample.id1)).
    { apply run_mention. exists [AT], Sample.id1, [].
      split; [left; reflexivity|].
      split; [split; [reflexivity | simpl; lia] | auto]. }
    change (scan userMentionMatcher i
              (repeat AT 0 ++ lit "<@111111111111111111>"))
      with (match run (matcher KUser) (Nat.eqb i 0)
                      (mentionText [AT] Sample.id1 ++ []) with
            | Some m => Some (mkResult i m)
            | None => scan userMentionMatcher (S i) (lit "@111111111111111111>")
            end).
    rewrite R, Nat.add_0_r. reflexivity.
  - change (scan userMentionMatcher i
              (repeat AT (S k) ++ lit "<@111111111111111111>"))
      with (scan userMentionMatcher (S i)
              (repeat AT k ++ lit "<@111111111111111111>")).
    rewrite IH. do 2 f_equal. lia.
Qed.

Lemma indexOf_self_mention (k : nat) :
  indexOf (lit "<@111111111111111111>")
          (repeat AT k ++ lit "<@111111111111111111>") = Some k.
Proof.
  induction k as [|k IH]; [vm_compute; reflexivity|].
  simpl repeat. simpl app. rewrite indexOf_cons.
  change (prefixb (lit "<@111111111111111111>")
                  (AT :: repeat AT k ++ lit "<@111111111111111111>"))
    with false.
  rewrite IH. reflexivity.
Qed.

Lemma replace_self_mention (k : nat) :
  replace (repeat AT k ++ lit "<@111111111111111111>")
          (lit "<@111111111111111111>") (AT :: lit "<@111111111111111111>")
  = repeat AT (S k) ++ lit "<@111111111111111111>".
Proof.
  unfold replace. rewrite indexOf_self_mention.
  rewrite getSubstitution_literal by (vm_compute; intuition discriminate).
  assert (F : firstn k (repeat AT k ++ lit "<@111111111111111111>")
              = repeat AT k)
    by (rewrite <- (repeat_length AT k) at 1; apply firstn_exact).
  assert (K : skipn (k + length (lit "<@111111111111111111>"))
                    (repeat AT k ++ lit "<@111111111111111111>") = [])
    by (apply skipn_all2; rewrite length_app, repeat_length; lia).
  rewrite F, K, app_nil_r.
  change (repeat AT (S k)) with (AT :: repeat AT k).
  rewrite repeat_cons, <- app_assoc. reflexivity.
Qed.

Lemma cleanUsers_self_mention (fuel k : nat) :
  cleanUsers fuel (Sample.inGuild Sample.guild3 [])
             (repeat AT k ++ lit "<@111111111111111111>") = Running.
Proof.
  revert k; induction fuel as [|fuel IH]; intros k; simpl cleanUsers;
    unfold exec; rewrite scan_self_mention; [reflexivity|].
  simpl whole. simpl group1.
  change (userReplacement (Sample.inGuild Sample.guild3 []) Sample.id1)
    with (AT :: lit "<@111111111111111111>").
  rewrite replace_self_mention. apply IH.
Qed.

Lemma cleanContent_self_mention_runs_on (fuel : nat) :
  fst (cleanContent fuel false
         (Sample.inGuild Sample.guild3 [lit "<@111111111111111111>"]))
  = Running.
Proof.
  unfold cleanContent.
  change (consume false
            (Sample.inGuild Sample.guild3 [lit "<@111111111111111111>"]))
    with (Some (lit "<@111111111111111111>"), Sample.inGuild Sample.guild3 []).
  change (lit "<@111111111111111111>")
    with (LT :: lit "@111111111111111111>") at 1.
  cbv iota beta. simpl fst.
  change (LT :: lit "@111111111111111111>")
    with (repeat AT 0 ++ lit "<@111111111111111111>").
  rewrite cleanUsers_self_mention. reflexivity.
Qed.

(** The claim of exhaustive removal fails as stated: with a role named [1],
    the role loop turns the text below into a user mention, which the
    finished user loop does not see. *)
Lemma cleanContent_leaves_mention_counterexample :
  fst (cleanContent 5 false
         (Sample.inGuild Sample.guild1
            [lit "<<@&111111111111111111>23456789012345678>"]))
  = Normal (Some (lit "<@123456789012345678>")) /\
  contains KUser (lit "<@123456789012345678>") /\
  exec userMentionMatcher (lit "<@123456789012345678>") <> None.
Proof.
  split; [vm_compute; reflexivity|]. split.
  - exists [], [AT], (lit "123456789012345678"), [].
    split; [left; reflexivity|].
    split; [split; [reflexivity | simpl; lia] | reflexivity].
  - vm_compute. discriminate.
Qed.

End CleanContent.

(** ** More on the cursor: what every operation leaves behind *)

Section CursorMore.

Lemma consume_args (c : bool) (p : ArgParser) :
  args (snd (consume c p)) = if c then [] else tl (args p).
Proof.
  destruct c; [rewrite consume_rest | rewrite consume_one]; reflexivity.
Qed.

Lemma resolveUser_state (c : bool) (p : ArgParser) :
  snd (resolveUser c p) = snd (nextArgument c p).
Proof.
  unfold resolveUser, nextArgument.
  destruct (consume c p) as [a p']. simpl.
  destruct a as [[|x a]|]; try reflexivity.
  destruct (orElse _ _); [reflexivity|].
  destruct (hasDiscrim _); reflexivity.
Qed.

Lemma resolveChannel_state (c : bool) (p : ArgParser) :
  snd (resolveChannel c p) = snd (nextArgument c p).
Proof.
  unfold resolveChannel, nextArgument.
  destruct (consume c p) as [a p']. simpl.
  destruct a as [[|x a]|]; try reflexivity.
  destruct (orElse _ _); [reflexivity|].
  destruct (guild (msg p')); reflexivity.
Qed.

Lemma cleanContent_state (fuel : nat) (c : bool) (p : ArgParser) :
  snd (cleanContent fuel c p) = snd (nextArgument c p).
Proof.
  unfold cleanContent, nextArgument.
  destruct (consume c p) as [a p']. simpl.
  destruct a as [[|x a]|]; reflexivity.
Qed.

(** X1: every consuming operation leaves the parser as [nextArgument]
    leaves it, whatever it returns, also when [cleanContent] throws or has not
    ended: the list without its first token, or the empty list when the rest
    is consumed; after a consume-rest call [isEmpty] holds and [textLength]
    is 0. *)
Theorem consumers_leave_same_list (fuel : nat) (c : bool) (p : ArgParser) :
  snd (resolveUser c p) = snd (nextArgument c p) /\
  snd (resolveChannel c p) = snd (nextArgument c p) /\
  snd (resolveRole c p) = snd (nextArgument c p) /\
  snd (cleanContent fuel c p) = snd (nextArgument c p) /\
  (args (snd (nextArgument c p)) = if c then [] else tl (args p)) /\
  isEmpty (snd (nextArgument true p)) = true /\
  textLength (snd (nextArgument true p)) = 0.
Proof.
  rewrite resolveUser_state, resolveChannel_state, resolveRole_state,
    cleanContent_state.
  unfold nextArgument, isEmpty, textLength, gather. rewrite !consume_args.
  repeat split.
Qed.

Lemma isEmpty_truthy (p : ArgParser) :
  isEmpty p = negb (truthy (fst (nextArgument false p))).
Proof.
  unfold isEmpty, nextArgument. rewrite consume_one.
  destruct (args p); reflexivity.
Qed.

(** X2: when [isEmpty] holds, the next single token is [undefined] or the
    empty string, so every resolver called without consume-rest returns
    absent and [cleanContent] returns null, whatever the directories hold. *)
Theorem isEmpty_nothing_to_resolve (fuel : nat) (p : ArgParser) :
  isEmpty p = true ->
  truthy (fst (nextArgument false p)) = false /\
  fst (resolveUser false p) = None /\
  fst (resolveChannel false p) = None /\
  fst (resolveRole false p) = None /\
  fst (cleanContent fuel false p) = Normal None.
Proof.
  rewrite isEmpty_truthy. intros H. apply negb_true_iff in H.
  split; [exact H|].
  unfold resolveUser, resolveChannel, resolveRole, cleanContent,
    nextArgument in *.
  destruct (consume false p) as [a p']. simpl in H.
  destruct a as [[|x a]|]; try discriminate; simpl;
    destruct (guild (msg p')); auto.
Qed.

Lemma isEmpty_nothing_to_resolve_witness :
  isEmpty (Sample.direct [[]; lit "Jane"]) = true /\
  fst (resolveUser false (Sample.direct [[]; lit "Jane"])) = None /\
  args (snd (resolveUser false (Sample.direct [[]; lit "Jane"])))
  = [lit "Jane"].
Proof.
  destruct (@isEmpty_nothing_to_resolve 0 (Sample.direct [[]; lit "Jane"])
              eq_refl) as (_ & H & _).
  split; [reflexivity|]. split; [exact H | reflexivity].
Defined.

(** X3: [nextArgument(false)] on a non-empty list returns the first token
    and leaves the others; [gather] before the call is that token, a space
    and [gather] after it (the token alone when it was the last). *)
Theorem nextArgument_one_splits_gather (p : ArgParser) (x : jsstring)
        (rest : list jsstring) :
  args p = x :: rest ->
  fst (nextArgument false p) = Some x /\
  args (snd (nextArgument false p)) = rest /\
  gather p =
  match rest with
  | [] => x
  | _ :: _ => x ++ [SPACE] ++ gather (snd (nextArgument false p))
  end.
Proof.
  intros E. unfold nextArgument, gather. rewrite consume_one, E. simpl.
  repeat split.
Qed.

Lemma nextArgument_one_splits_gather_witness :
  gather (Sample.direct [lit "a"; lit "b"; lit "c"])
  = lit "a" ++ [SPACE]
    ++ gather (snd (nextArgument false
                      (Sample.direct [lit "a"; lit "b"; lit "c"]))).
Proof.
  destruct (@nextArgument_one_splits_gather
              (Sample.direct [lit "a"; lit "b"; lit "c"])
              (lit "a") [lit "b"; lit "c"] eq_refl) as (_ & _ & H).
  exact H.
Defined.

Lemma join_length (sep : jsstring) (l : list jsstring) :
  length (join sep l)
  = list_sum (map (@length code_unit) l) + length sep * (length l - 1).
Proof.
  induction l as [|x l IH]; [simpl; lia|].
  destruct l as [|y l].
  - simpl. lia.
  - change (join sep (x :: y :: l)) with (x ++ sep ++ join sep (y :: l)).
    rewrite !length_app, IH. simpl. lia.
Qed.

(** X4: [textLength] is the sum of the lengths of the tokens plus one
    separator between each two neighbours; it is 0 for the empty list. *)
Theorem textLength_sum (p : ArgParser) :
  textLength p
  = list_sum (map (@length code_unit) (args p)) + (length (args p) - 1).
Proof.
  unfold textLength, gather. rewrite join_length. simpl. lia.
Qed.

(** X5: [getArgument] returns the first token when the index is 0, or
    negative and at most minus the length, and the empty string for every
    other index: it never returns a token other than the first one. *)
Theorem getArgument_first_or_empty (i : Z) (p : ArgParser) :
  fst (getArgument i p) =
  match args p with
  | [] => []
  | x :: _ =>
      if (i =? 0)%Z || (i <=? - Z.of_nat (length (args p)))%Z then x else []
  end.
Proof.
  unfold getArgument, slice, relIndex. simpl fst.
  destruct (args p) as [|x l] eqn:E;
    [rewrite skipn_nil, firstn_nil; reflexivity|].
  change (1 <? 0)%Z with false. cbv iota.
  set (n := Z.of_nat (length (x :: l))).
  assert (Hn : (1 <= n)%Z) by (unfold n; simpl length; lia).
  rewrite (Z.min_l 1 n) by lia.
  destruct (Z.eqb_spec i 0) as [->|N0].
  - simpl. reflexivity.
  - destruct (Z.ltb_spec i 0) as [L|L].
    + destruct (Z.leb_spec i (- n)) as [B|B]; simpl orb; cbv iota.
      * rewrite Z.max_r by lia. reflexivity.
      * replace (Z.to_nat (1 - Z.max (n + i) 0)) with 0 by lia. reflexivity.
    + destruct (Z.leb_spec i (- n)) as [B|B]; [lia|]. simpl orb. cbv iota.
      replace (Z.to_nat (1 - Z.min i n)) with 0 by lia. reflexivity.
Qed.

Lemma nth_error_remove {A} (n j : nat) (l : list A) :
  nth_error (firstn n l ++ skipn (S n) l) j =
  nth_error l (if j <? n then j else S j).
Proof.
  revert j l; induction n as [|n IH]; intros j l.
  - destruct l; [destruct j; reflexivity | reflexivity].
  - destruct l as [|x l];
      [simpl; destruct j; [|destruct (S j <? S n)]; reflexivity|].
    destruct j as [|j]; [reflexivity|].
    change (firstn (S n) (x :: l) ++ skipn (S (S n)) (x :: l))
      with (x :: (firstn n l ++ skipn (S n) l)).
    simpl nth_error at 1. rewrite IH.
    change (S j <? S n) with (j <? n). destruct (j <? n); reflexivity.
Qed.

(** X6: for an index within the list, [drop] shortens the list by one, keeps
    the tokens before the index where they were and moves each later token
    one place down. *)
Theorem drop_shifts_later_tokens (i : Z) (p : ArgParser) (j : nat) :
  (0 <= i < Z.of_nat (length (args p)))%Z ->
  length (args (drop i p)) = length (args p) - 1 /\
  nth_error (args (drop i p)) j =
  nth_error (args p) (if j <? Z.to_nat i then j else S j).
Proof.
  intros H.
  change (args (drop i p)) with (snd (splice (args p) i (Some 1%Z))).
  rewrite splice_one.
  destruct (Z.leb_spec (Z.of_nat (length (args p))) i); [lia|].
  destruct (Z.leb_spec 0 i); [|lia].
  split; [|apply nth_error_remove].
  rewrite length_app, length_firstn, length_skipn. lia.
Qed.

Lemma drop_shifts_later_tokens_witness :
  nth_error (args (drop 1 (Sample.direct [lit "a"; lit "b"; lit "c"]))) 1
  = Some (lit "c").
Proof.
  destruct (@drop_shifts_later_tokens 1
              (Sample.direct [lit "a"; lit "b"; lit "c"]) 1) as [_ H].
  - simpl. lia.
  - rewrite H. reflexivity.
Defined.

End CursorMore.

(** ** More on the resolvers *)

Section ResolversMore.

(** X7: when the consumed string is neither an ID nor holds a user mention,
    the user that [resolveUser] returns is the first one of the cache whose
    [username#discriminator] (when the 5th character from the end is [#]) or
    [username] (otherwise) is the string; it returns nothing exactly when no
    cached user passes that test. *)
Theorem resolveUser_by_name_first_match (c : bool) (p : ArgParser)
        (s : jsstring) :
  fst (consume c p) = Some s -> s <> [] -> ~ isId s -> ~ contains KUser s ->
  (forall u, fst (resolveUser c p) = Some u ->
             firstMatch (users (bot p)) (userNameMatches s) u) /\
  (fst (resolveUser c p) = None <->
   forall kv, In kv (users (bot p)) -> ~ userNameMatches s (snd kv)).
Proof.
  intros H Hs Hid Hm. rewrite (resolveUser_nonempty c p H Hs).
  apply exec_idMatcher_none in Hid.
  apply (exec_mention_none KUser) in Hm. simpl matcher in Hm.
  rewrite Hid, Hm. simpl orElse. rewrite hasDiscrim_fifthFromEnd.
  unfold userNameMatches. destruct (fifthFromEndIsHash s); split.
  - intros u F. apply find_first in F.
    eapply firstMatch_iff; [|exact F].
    intros x; apply string_eqb_eq.
  - rewrite find_none. split; intros F kv Hin; specialize (F kv Hin).
    + apply string_eqb_false, F.
    + apply string_eqb_false, F.
  - intros u F. apply find_first in F.
    eapply firstMatch_iff; [|exact F].
    intros x; apply string_eqb_eq.
  - rewrite find_none. split; intros F kv Hin; specialize (F kv Hin).
    + apply string_eqb_false, F.
    + apply string_eqb_false, F.
Qed.

Lemma resolveUser_by_name_first_match_witness :
  fst (resolveUser false (Sample.direct [lit "Jane"])) = Some Sample.jane /\
  firstMatch (users Sample.client) (userNameMatches (lit "Jane")) Sample.jane.
Proof.
  assert (E : fst (resolveUser false (Sample.direct [lit "Jane"]))
              = Some Sample.jane) by reflexivity.
  split; [exact E|].
  refine (proj1 (@resolveUser_by_name_first_match false
                   (Sample.direct [lit "Jane"]) (lit "Jane")
                   eq_refl _ _ _) Sample.jane E).
  - discriminate.
  - apply exec_idMatcher_none. vm_compute. reflexivity.
  - apply (exec_mention_none KUser). vm_compute. reflexivity.
Defined.

(** X8: in a guild, when the consumed string is neither an ID nor holds a
    mention of the kind, [resolveChannel] and [resolveRole] return the first
    channel, or role, of the guild whose name is the string, and nothing
    exactly when the guild has none of that name. *)
Theorem resolve_by_name_in_guild (c : bool) (p : ArgParser) (g : Guild)
        (s : jsstring) :
  guild (msg p) = Some g ->
  fst (consume c p) = Some s -> s <> [] -> ~ isId s ->
  (~ contains KChannel s ->
   (forall ch, fst (resolveChannel c p) = Some ch ->
               firstMatch (channels g) (fun x => channel_name x = s) ch) /\
   (fst (resolveChannel c p) = None <->
    forall kv, In kv (channels g) -> channel_name (snd kv) <> s)) /\
  (~ contains KRole s ->
   (forall r, fst (resolveRole c p) = Some r ->
              firstMatch (roles g) (fun x => role_name x = s) r) /\
   (fst (resolveRole c p) = None <->
    forall kv, In kv (roles g) -> role_name (snd kv) <> s)).
Proof.
  intros G H Hs Hid. apply exec_idMatcher_none in Hid.
  rewrite (resolveChannel_nonempty c p H Hs), (resolveRole_nonempty c p H Hs).
  rewrite G, Hid. split; intros Hm.
  - apply (exec_mention_none KChannel) in Hm. simpl matcher in Hm.
    rewrite Hm. simpl orElse. split.
    + intros ch F. apply find_first in F.
      eapply firstMatch_iff; [|exact F].
    intros x; apply string_eqb_eq.
    + rewrite find_none. split; intros F kv Hin; specialize (F kv Hin);
        apply string_eqb_false, F.
  - apply (exec_mention_none KRole) in Hm. simpl matcher in Hm.
    rewrite Hm. simpl orElse. split.
    + intros r F. apply find_first in F.
      eapply firstMatch_iff; [|exact F].
    intros x; apply string_eqb_eq.
    + rewrite find_none. split; intros F kv Hin; specialize (F kv Hin);
        apply string_eqb_false, F.
Qed.

Lemma resolve_by_name_in_guild_witness :
  fst (resolveRole false (Sample.inGuild Sample.guild2 [lit "Admin"]))
  = Some {| role_name := lit "Admin" |} /\
  fst (resolveChannel false (Sample.inGuild Sample.guild2 [lit "Admin"]))
  = None /\
  forall kv, In kv (channels Sample.guild2) ->
             channel_name (snd kv) <> lit "Admin".
Proof.
  split; [reflexivity|].
  assert (E : fst (resolveChannel false
                     (Sample.inGuild Sample.guild2 [lit "Admin"])) = None)
    by reflexivity.
  split; [exact E|].
  refine (proj1 (proj2 (proj1
            (@resolve_by_name_in_guild false
               (Sample.inGuild Sample.guild2 [lit "Admin"]) Sample.guild2
               (lit "Admin") eq_refl eq_refl _ _) _)) E).
  - discriminate.
  - apply exec_idMatcher_none. vm_compute. reflexivity.
  - apply (exec_mention_none KChannel). vm_compute. reflexivity.
Defined.

(** X9: in a private channel [resolveChannel] never looks a name up: unless
    the consumed string is an ID or holds a channel mention, the result is
    absent, whatever channels exist. *)
Theorem resolveChannel_private_no_name_lookup (c : bool) (p : ArgParser)
        (s : jsstring) :
  guild (msg p) = None ->
  fst (consume c p) = Some s -> ~ isId s -> ~ contains KChannel s ->
  fst (resolveChannel c p) = None.
Proof.
  intros G H Hid Hm. destruct s as [|x s0].
  - apply consume_some in H as (p' & E & _). unfold resolveChannel.
    rewrite E. reflexivity.
  - rewrite (resolveChannel_nonempty c p H) by discriminate.
    apply exec_idMatcher_none in Hid.
    apply (exec_mention_none KChannel) in Hm. simpl matcher in Hm.
    rewrite Hid, Hm, G. reflexivity.
Qed.

Lemma resolveChannel_private_no_name_lookup_witness :
  fst (resolveChannel false (Sample.direct [lit "general"])) = None.
Proof.
  apply (@resolveChannel_private_no_name_lookup false
           (Sample.direct [lit "general"]) (lit "general")).
  - reflexivity.
  - reflexivity.
  - apply exec_idMatcher_none. vm_compute. reflexivity.
  - apply (exec_mention_none KChannel). vm_compute. reflexivity.
Defined.

End ResolversMore.

(** ** More on the patterns *)

Section PatternsMore.

Lemma scan_here (r : regex) (i : nat) (s : jsstring)
      (m : jsstring * option jsstring) :
  run r (Nat.eqb i 0) s = Some m -> scan r i s = Some (mkResult i m).
Proof.
  intros H. destruct s as [|c s].
  - change (scan r i [])
      with (match run r (Nat.eqb i 0) [] with
            | Some m => Some (mkResult i m)
            | None => None
            end).
    rewrite H. reflexivity.
  - change (scan r i (c :: s))
      with (match run r (Nat.eqb i 0) (c :: s) with
            | Some m => Some (mkResult i m)
            | None => scan r (S i) s
            end).
    rewrite H. reflexivity.
Qed.

(** A mention at the very start of the string is the one [exec] returns. *)
Lemma exec_leading (k : kind) (tag id post : jsstring) :
  isTag k tag -> isId id ->
  exec (matcher k) (mentionText tag id ++ post)
  = Some {| index := 0; whole := mentionText tag id; group1 := id |}.
Proof.
  intros Ht Hid. unfold exec.
  rewrite (@scan_here (matcher k) 0 (mentionText tag id ++ post)
             (mentionText tag id, Some id)); [reflexivity|].
  apply run_mention. exists tag, id, post. auto.
Qed.

Lemma digits_run_unique (ds ds' a b : jsstring) :
  forallb isDigit ds = true -> forallb isDigit ds' = true ->
  ds ++ GT :: a = ds' ++ GT :: b -> ds = ds' /\ a = b.
Proof.
  revert ds'. induction ds as [|c ds IH]; intros [|d ds'] H H' E;
    simpl in *.
  - injection E as ->. auto.
  - injection E as <- _. discriminate.
  - injection E as -> _. discriminate.
  - apply andb_true_iff in H as [_ H]. apply andb_true_iff in H' as [_ H'].
    injection E as -> E. destruct (IH ds' H H' E) as [-> ->]. auto.
Qed.

Lemma tag_digits_plain (k : kind) (tag ds : jsstring) :
  isTag k tag -> forallb isDigit ds = true -> ~ In LT (tag ++ ds ++ [GT]).
Proof.
  intros Ht Hd H. apply in_app_or in H as [H|H].
  - destruct k; simpl in Ht.
    + destruct Ht as [-> | ->]; simpl in H; intuition discriminate.
    + subst tag; simpl in H; intuition discriminate.
    + subst tag; simpl in H; intuition discriminate.
  - apply in_app_or in H as [H|[H|[]]]; [|discriminate].
    apply (@digit_chars ds LT Hd) in H. discriminate.
Qed.

Lemma digits_head_not (ds rest : jsstring) (x : code_unit) (l : jsstring) :
  forallb isDigit ds = true -> isDigit x = false -> x <> GT ->
  ds ++ GT :: rest <> x :: l.
Proof.
  intros Hd Hx Hg E. destruct ds as [|d ds]; simpl in *.
  - injection E as E _. congruence.
  - apply andb_true_iff in Hd as [Hd _]. injection E as -> _. congruence.
Qed.

(** A text of the shape of a mention holds no other mention than itself:
    any mention found in it has the same tag and the same digits. *)
Lemma mention_unique (k k' : kind) (tag ds : jsstring) :
  isTag k tag -> forallb isDigit ds = true ->
  contains k' (mentionText tag ds) -> isTag k' tag /\ isId ds.
Proof.
  intros Ht Hd (pre & tag' & ds' & post & Ht' & Hid' & E).
  unfold mentionText in E. destruct pre as [|c pre].
  - simpl in E. injection E as E.
    rewrite <- !app_assoc in E. simpl in E.
    destruct Hid' as [Hd' Hl'].
    assert (Same : ds ++ [GT] = ds' ++ GT :: post -> isId ds).
    { intros S. apply digits_run_unique in S as [-> _]; auto. split; auto. }
    assert (N1 : forall x l, isDigit x = false -> x <> GT ->
                             ds ++ [GT] <> x :: l)
      by (intros x l; apply digits_head_not, Hd).
    assert (N2 : forall x l, isDigit x = false -> x <> GT ->
                             ds' ++ GT :: post <> x :: l)
      by (intros x l; apply digits_head_not, Hd').
    destruct k, k'; simpl in Ht, Ht';
      repeat match goal with
             | H : _ \/ _ |- _ => destruct H
             end; subst tag tag'; simpl in E; try discriminate;
      try (injection E as E);
      try (split; [simpl; auto | apply Same; exact E]);
      exfalso;
      solve [ discriminate E
            | eapply N1; [ | |exact E]; [reflexivity | discriminate]
            | eapply N1; [ | |symmetry; exact E]; [reflexivity | discriminate]
            | eapply N2; [ | |exact E]; [reflexivity | discriminate]
            | eapply N2; [ | |symmetry; exact E];
              [reflexivity | discriminate] ].
  - exfalso. simpl in E. injection E as _ E.
    apply (@tag_digits_plain k tag ds Ht Hd). rewrite E.
    apply in_or_app. right. left. reflexivity.
Qed.

End PatternsMore.

Section MentionsMore.

Lemma orElse_leading (k : kind) (tag id post : jsstring) :
  isTag k tag -> isId id ->
  orElse (exec idMatcher (mentionText tag id ++ post))
         (exec (matcher k) (mentionText tag id ++ post))
  = Some {| index := 0; whole := mentionText tag id; group1 := id |}.
Proof.
  intros Ht Hid.
  assert (N : exec idMatcher (mentionText tag id ++ post) = None).
  { apply exec_idMatcher_none. intros [Hd _]. discriminate. }
  rewrite N. simpl orElse. apply exec_leading; assumption.
Qed.

(** X10: a consumed string that begins with a mention, of either form for
    users, is resolved by the ID of that mention, whatever follows it: in the
    user cache, through the client, or in the roles of the guild. *)
Theorem leading_mention_resolves_its_id (c : bool) (p : ArgParser)
        (k : kind) (tag id post : jsstring) :
  isTag k tag -> isId id ->
  fst (consume c p) = Some (mentionText tag id ++ post) ->
  match k with
  | KUser => fst (resolveUser c p) = get (users (bot p)) id
  | KChannel => fst (resolveChannel c p) = getChannel (bot p) id
  | KRole =>
      fst (resolveRole c p) =
      match guild (msg p) with
      | None => None
      | Some g => get (roles g) id
      end
  end.
Proof.
  intros Ht Hid H.
  assert (Hs : mentionText tag id ++ post <> []) by discriminate.
  pose proof (@orElse_leading k tag id post Ht Hid) as O.
  destruct k; simpl matcher in O.
  - rewrite (resolveUser_nonempty c p H Hs), O. reflexivity.
  - rewrite (resolveChannel_nonempty c p H Hs), O. reflexivity.
  - rewrite (resolveRole_nonempty c p H Hs), O.
    destruct (guild (msg p)); reflexivity.
Qed.

Lemma leading_mention_resolves_its_id_witness :
  fst (resolveUser false
         (Sample.direct [lit "<@!123456789012345678>,"; lit "hello"]))
  = Some Sample.jane.
Proof.
  rewrite (@leading_mention_resolves_its_id false
             (Sample.direct [lit "<@!123456789012345678>,"; lit "hello"])
             KUser [AT; BANG] (lit "123456789012345678") (lit ",")).
  - reflexivity.
  - right. reflexivity.
  - split; [reflexivity | simpl; lia].
  - reflexivity.
Defined.

(** X11: the bound on the digits holds for mentions too: a text of the
    shape of a mention whose digits are fewer than 15 or more than 21 is
    matched by none of the four patterns, so [resolveChannel] and
    [resolveRole] look it up as a name. *)
Theorem mention_digit_bounds (k : kind) (tag ds : jsstring) :
  isTag k tag -> forallb isDigit ds = true ->
  length ds < 15 \/ 21 < length ds ->
  exec idMatcher (mentionText tag ds) = None /\
  (forall k', exec (matcher k') (mentionText tag ds) = None) /\
  forall c p,
    fst (consume c p) = Some (mentionText tag ds) ->
    fst (resolveChannel c p) =
    match guild (msg p) with
    | None => None
    | Some g =>
        find (channels g)
          (fun channel => string_eqb (channel_name channel)
                                     (mentionText tag ds))
    end /\
    fst (resolveRole c p) =
    match guild (msg p) with
    | None => None
    | Some g =>
        find (roles g)
          (fun role => string_eqb (role_name role) (mentionText tag ds))
    end.
Proof.
  intros Ht Hd Hl.
  assert (N : exec idMatcher (mentionText tag ds) = None).
  { apply exec_idMatcher_none. intros [D _]. discriminate. }
  assert (M : forall k', exec (matcher k') (mentionText tag ds) = None).
  { intros k'. apply exec_mention_none. intros C.
    apply (@mention_unique k k' tag ds Ht Hd) in C as [_ [_ L]]. lia. }
  split; [exact N|]. split; [exact M|].
  intros c p H.
  assert (Hs : mentionText tag ds <> []) by discriminate.
  rewrite (resolveChannel_nonempty c p H Hs), (resolveRole_nonempty c p H Hs).
  pose proof (M KChannel) as Mc. pose proof (M KRole) as Mr.
  simpl matcher in Mc, Mr. rewrite N, Mc, Mr. simpl orElse.
  split; reflexivity.
Qed.

Lemma mention_digit_bounds_witness :
  exec roleMentionMatcher (lit "<@&12345678901234>") = None /\
  fst (resolveRole false
         (Sample.inGuild Sample.guild2 [lit "<@&12345678901234>"])) = None.
Proof.
  destruct (@mention_digit_bounds KRole [AT; AMP] (lit "12345678901234"))
    as (_ & M & R).
  - reflexivity.
  - reflexivity.
  - left. simpl. lia.
  - split; [exact (M KRole)|].
    destruct (R false
                (Sample.inGuild Sample.guild2 [lit "<@&12345678901234>"])
                eq_refl) as [_ ->].
    reflexivity.
Defined.

(** X12: the text that [exec] matched occurs first at the index of the
    match, so [replace(match[0], ...)] in the loops of [cleanContent] replaces
    the very occurrence that was matched; a replacement without [$] takes its
    place between what was before and what was after. *)
Theorem replace_hits_the_match (k : kind) (s t : jsstring)
        (m : matchResult) :
  exec (matcher k) s = Some m ->
  indexOf (whole m) s = Some (index m) /\
  (~ In DOLLAR t ->
   replace s (whole m) t =
   firstn (index m) s ++ t ++ skipn (index m + length (whole m)) s).
Proof.
  intros E.
  apply exec_mention_some in E
    as (pre & tag & ds & post & Ht & Hid & Es & -> & Least).
  simpl whole. simpl index.
  assert (I : indexOf (mentionText tag ds) s = Some (length pre)).
  { rewrite Es.
    destruct (indexOf_occurs (mentionText tag ds) pre post) as (i & Ei & Li).
    rewrite Ei. f_equal. rewrite <- Es in Ei.
    destruct (indexOf_split _ _ Ei) as [Sp Bd].
    assert (Lf : length (firstn i s) = i) by (apply firstn_length_le; lia).
    specialize (Least _ _ _ _ Ht Hid Sp). lia. }
  split; [exact I|].
  intros Hd. unfold replace. rewrite I.
  rewrite getSubstitution_literal by exact Hd. reflexivity.
Qed.

Lemma replace_hits_the_match_witness :
  replace (lit "hi <@123456789012345678>!") (lit "<@123456789012345678>")
          (lit "@Jane")
  = lit "hi @Jane!".
Proof.
  destruct (@replace_hits_the_match KUser
              (lit "hi <@123456789012345678>!") (lit "@Jane")
              {| index := 3; whole := lit "<@123456789012345678>";
                 group1 := lit "123456789012345678" |})
    as [_ H].
  - vm_compute. reflexivity.
  - simpl whole in H. rewrite H; [reflexivity|].
    vm_compute. intuition discriminate.
Defined.

End MentionsMore.

(** ** More on cleanContent *)

Section CleanContentMore.

Lemma cleanUsers_done (fuel : nat) (p : ArgParser) (a : jsstring) :
  exec userMentionMatcher a = None -> cleanUsers fuel p a = Normal a.
Proof. intros H. destruct fuel; simpl; rewrite H; reflexivity. Qed.

Lemma cleanChannels_done (fuel : nat) (p : ArgParser) (a : jsstring) :
  exec channelMentionMatcher a = None -> cleanChannels fuel p a = Normal a.
Proof. intros H. destruct fuel; simpl; rewrite H; reflexivity. Qed.

Lemma cleanRoles_done (fuel : nat) (p : ArgParser) (a : jsstring) :
  exec roleMentionMatcher a = None -> cleanRoles fuel p a = Normal a.
Proof. intros H. destruct fuel; simpl; rewrite H; reflexivity. Qed.

Lemma cleanUsers_S (fuel : nat) (p : ArgParser) (a : jsstring) :
  cleanUsers (S fuel) p a =
  match exec userMentionMatcher a with
  | None => Normal a
  | Some m =>
      cleanUsers fuel p
        (replace a (whole m) (userReplacement p (group1 m)))
  end.
Proof. reflexivity. Qed.

Lemma cleanChannels_S (fuel : nat) (p : ArgParser) (a : jsstring) :
  cleanChannels (S fuel) p a =
  match exec channelMentionMatcher a with
  | None => Normal a
  | Some m =>
      match guild (msg p) with
      | None => Throw
      | Some g =>
          cleanChannels fuel p
            (replace a (whole m)
               match get (channels g) (group1 m) with
               | Some channel => HASH :: channel_name channel
               | None => lit "#deleted-channel"
               end)
      end
  end.
Proof. reflexivity. Qed.

Lemma cleanRoles_S (fuel : nat) (p : ArgParser) (a : jsstring) :
  cleanRoles (S fuel) p a =
  match exec roleMentionMatcher a with
  | None => Normal a
  | Some m =>
      match guild (msg p) with
      | None => Throw
      | Some g =>
          cleanRoles fuel p
            (replace a (whole m)
               match get (roles g) (group1 m) with
               | Some role => AT :: role_name role
               | None => lit "@deleted-role"
               end)
      end
  end.
Proof. reflexivity. Qed.

Lemma exec_none_all (a : jsstring) :
  (forall k, ~ contains k a) ->
  exec userMentionMatcher a = None /\
  exec channelMentionMatcher a = None /\
  exec roleMentionMatcher a = None.
Proof.
  intros H. repeat split.
  - apply (exec_mention_none KUser), H.
  - apply (exec_mention_none KChannel), H.
  - apply (exec_mention_none KRole), H.
Qed.

(** The three loops leave a string without mentions as it is. *)
Lemma cleanContent_after_loops (fuel : nat) (c : bool) (p p' : ArgParser)
      (a0 a : jsstring) :
  consume c p = (Some a0, p') -> a0 <> [] ->
  cleanUsers fuel p' a0 = Normal a -> (forall k, ~ contains k a) ->
  fst (cleanContent fuel c p) = Normal (Some (cleanEveryoneHere a)).
Proof.
  intros E Ha U H. destruct (exec_none_all H) as (_ & Hc & Hr).
  unfold cleanContent. rewrite E.
  destruct a0 as [|x a0]; [congruence|]. simpl fst.
  rewrite U. cbn [bind].
  rewrite (cleanChannels_done _ _ _ Hc). cbn [bind].
  rewrite (cleanRoles_done _ _ _ Hr). reflexivity.
Qed.

(** X13: on a non-empty string that holds no mention, [cleanContent] does
    nothing but the [@everyone]/[@here] step: it returns that result with any
    fuel, with or without a guild, and asks no directory. *)
Theorem cleanContent_without_mentions (fuel : nat) (c : bool)
        (p : ArgParser) (s : jsstring) :
  fst (consume c p) = Some s -> s <> [] -> (forall k, ~ contains k s) ->
  fst (cleanContent fuel c p) = Normal (Some (cleanEveryoneHere s)).
Proof.
  intros H Hs Hk. apply consume_some in H as (p' & E & _).
  apply (@cleanContent_after_loops fuel c p p' s s E Hs); [|exact Hk].
  apply cleanUsers_done. apply (exec_none_all Hk).
Qed.

Lemma plain_no_mention (k : kind) (f : jsstring) :
  ~ In LT f -> ~ contains k f.
Proof.
  intros H (pre & tag & ds & post & _ & _ & ->). apply H.
  apply in_or_app. right. left. reflexivity.
Qed.

Lemma cleanContent_without_mentions_witness :
  fst (cleanContent 0 false (Sample.direct [lit "hello@here"]))
  = Normal (Some (cleanEveryoneHere (lit "hello@here"))).
Proof.
  apply (@cleanContent_without_mentions 0 false
           (Sample.direct [lit "hello@here"]) (lit "hello@here")).
  - reflexivity.
  - discriminate.
  - intros k. apply plain_no_mention. vm_compute. intuition discriminate.
Defined.

(** X14: in a private channel, on a string with no user mention that holds
    a channel mention or a role mention, [cleanContent] throws in the first
    iteration of the channel loop or of the role loop. *)
Theorem cleanContent_private_throws (fuel : nat) (c : bool) (p : ArgParser)
        (s : jsstring) :
  guild (msg p) = None -> fst (consume c p) = Some s ->
  ~ contains KUser s -> contains KChannel s \/ contains KRole s ->
  fst (cleanContent (S fuel) c p) = Throw.
Proof.
  intros G H Hu Hcr. apply consume_some in H as (p' & E & Em & _).
  rewrite <- Em in G.
  assert (Hs : s <> []).
  { intros ->. destruct Hcr as [C|C]; exact (contains_nil C). }
  unfold cleanContent. rewrite E. destruct s as [|x s0]; [congruence|].
  set (s := x :: s0) in *. cbn [fst].
  rewrite cleanUsers_done by (apply (exec_mention_none KUser), Hu).
  cbn [bind].
  destruct (exec channelMentionMatcher s) as [m|] eqn:Ec.
  - rewrite cleanChannels_S, Ec, G. reflexivity.
  - rewrite cleanChannels_done by exact Ec. cbn [bind].
    destruct Hcr as [C|C].
    + apply (exec_mention_none KChannel) in Ec. contradiction.
    + destruct (contains_exec C) as [m Er]. simpl matcher in Er.
      rewrite cleanRoles_S, Er, G. reflexivity.
Qed.

Lemma cleanContent_private_throws_witness :
  fst (cleanContent 1 true
         (Sample.direct [lit "ask"; lit "<@&111111111111111111>"])) = Throw.
Proof.
  apply (@cleanContent_private_throws 0 true
           (Sample.direct [lit "ask"; lit "<@&111111111111111111>"])
           (lit "ask <@&111111111111111111>")).
  - reflexivity.
  - reflexivity.
  - apply (exec_mention_none KUser). vm_compute. reflexivity.
  - right. exists (lit "ask "), [AT; AMP], (lit "111111111111111111"), [].
    split; [reflexivity|].
    split; [split; [reflexivity | simpl; lia] | reflexivity].
Defined.

Lemma stripZwsp_insertAt (n : nat) (s : jsstring) :
  stripZwsp (insertAt n ZWSP s) = stripZwsp s.
Proof.
  unfold stripZwsp, insertAt. rewrite filter_app. simpl.
  rewrite <- filter_app, firstn_skipn. reflexivity.
Qed.

Lemma length_insertAt (n : nat) (z : code_unit) (s : jsstring) :
  length (insertAt n z s) = S (length s).
Proof.
  unfold insertAt. rewrite length_app. simpl.
  rewrite <- (firstn_skipn n s) at 3. rewrite length_app. lia.
Qed.

Lemma replace_zwsp_only (rest t : jsstring) :
  ~ In DOLLAR rest ->
  stripZwsp (replace t (AT :: rest) (AT :: ZWSP :: rest)) = stripZwsp t /\
  length t <= length (replace t (AT :: rest) (AT :: ZWSP :: rest))
  <= S (length t).
Proof.
  intros Hd. rewrite replace_inserts by exact Hd.
  destruct (indexOf (AT :: rest) t).
  - rewrite stripZwsp_insertAt, length_insertAt. auto.
  - auto.
Qed.

(** X15: the [@everyone]/[@here] step only inserts U+200B: without those
    characters its result is its input without them, and the result is at
    most two characters longer than the input. *)
Theorem cleanEveryoneHere_only_inserts_zwsp (s : jsstring) :
  stripZwsp (cleanEveryoneHere s) = stripZwsp s /\
  length s <= length (cleanEveryoneHere s) <= length s + 2.
Proof.
  unfold cleanEveryoneHere.
  change (lit "@here") with (AT :: lit "here").
  change (lit "@everyone") with (AT :: lit "everyone").
  destruct (@replace_zwsp_only (lit "everyone") s) as (E1 & L1);
    [vm_compute; intuition discriminate|].
  destruct (@replace_zwsp_only (lit "here")
              (replace s (AT :: lit "everyone")
                       (AT :: ZWSP :: lit "everyone"))) as (E2 & L2);
    [vm_compute; intuition discriminate|].
  rewrite E2, E1. split; [reflexivity | lia].
Qed.

Lemma prefixb_refl (p : jsstring) : prefixb p p = true.
Proof.
  rewrite <- (app_nil_r p) at 2. apply prefixb_app.
Qed.

Lemma replace_whole (M f : jsstring) :
  ~ In DOLLAR f -> replace M M f = f.
Proof.
  intros Hd. unfold replace.
  assert (I : indexOf M M = Some 0).
  { destruct M as [|x M]; [reflexivity|].
    rewrite indexOf_cons, prefixb_refl. reflexivity. }
  rewrite I, getSubstitution_literal by exact Hd.
  simpl. rewrite skipn_all, app_nil_r. reflexivity.
Qed.

Lemma userReplacement_context (p p' : ArgParser) (id : jsstring) :
  msg p' = msg p -> bot p' = bot p ->
  userReplacement p' id = userReplacement p id.
Proof. intros Em Eb. unfold userReplacement. rewrite Em, Eb. reflexivity. Qed.

Lemma exec_lone (k : kind) (tag id : jsstring) :
  isTag k tag -> isId id ->
  exec (matcher k) (mentionText tag id)
  = Some {| index := 0; whole := mentionText tag id; group1 := id |}.
Proof.
  intros Ht Hid. rewrite <- (app_nil_r (mentionText tag id)) at 1.
  apply exec_leading; assumption.
Qed.

(** X16: a consumed string that is one user mention, of either form,
    becomes [@] and the nickname, or the username when there is no nickname,
    of the member (of the cached user, in a private channel), and
    [@deleted-user] when the ID is unknown, provided that name holds neither
    [<] nor [$]; then the [@everyone]/[@here] step applies. *)
Theorem lone_user_mention_cleaned (fuel : nat) (c : bool) (p : ArgParser)
        (tag id : jsstring) :
  isTag KUser tag -> isId id ->
  fst (consume c p) = Some (mentionText tag id) ->
  ~ In LT (userReplacement p id) -> ~ In DOLLAR (userReplacement p id) ->
  fst (cleanContent (S fuel) c p)
  = Normal (Some (cleanEveryoneHere (userReplacement p id))).
Proof.
  intros Ht Hid H Hl Hd. apply consume_some in H as (p' & E & Em & Eb).
  apply (@cleanContent_after_loops (S fuel) c p p' (mentionText tag id)
           (userReplacement p id) E); [discriminate| |].
  - pose proof (@exec_lone KUser tag id Ht Hid) as X. simpl matcher in X.
    rewrite cleanUsers_S, X. cbn [whole group1].
    rewrite (@userReplacement_context p p' id Em Eb), replace_whole
      by exact Hd.
    apply cleanUsers_done, (exec_mention_none KUser), plain_no_mention, Hl.
  - intros k. apply plain_no_mention, Hl.
Qed.

Lemma lone_user_mention_cleaned_witness :
  fst (cleanContent 1 false
         (Sample.inGuild Sample.guild2 [lit "<@!123456789012345678>"]))
  = Normal (Some (lit "@JJ")).
Proof.
  rewrite (@lone_user_mention_cleaned 0 false
             (Sample.inGuild Sample.guild2 [lit "<@!123456789012345678>"])
             [AT; BANG] (lit "123456789012345678")).
  - reflexivity.
  - right. reflexivity.
  - split; [reflexivity | simpl; lia].
  - reflexivity.
  - vm_compute. intuition discriminate.
  - vm_compute. intuition discriminate.
Defined.

(** X17: in a guild, a consumed string that is one channel mention becomes
    [#] and the name of the channel, or [#deleted-channel], and one that is
    one role mention becomes [@] and the name of the role, or
    [@deleted-role], provided the name holds neither [<] nor [$]; then the
    [@everyone]/[@here] step applies. *)
Theorem lone_channel_or_role_mention_cleaned (fuel : nat) (c : bool)
        (p : ArgParser) (g : Guild) (id : jsstring) :
  guild (msg p) = Some g -> isId id ->
  (let f := match get (channels g) id with
            | Some channel => HASH :: channel_name channel
            | None => lit "#deleted-channel"
            end in
   fst (consume c p) = Some (mentionText [HASH] id) ->
   ~ In LT f -> ~ In DOLLAR f ->
   fst (cleanContent (S fuel) c p) = Normal (Some (cleanEveryoneHere f))) /\
  (let f := match get (roles g) id with
            | Some role => AT :: role_name role
            | None => lit "@deleted-role"
            end in
   fst (consume c p) = Some (mentionText [AT; AMP] id) ->
   ~ In LT f -> ~ In DOLLAR f ->
   fst (cleanContent (S fuel) c p) = Normal (Some (cleanEveryoneHere f))).
Proof.
  intros G Hid. destruct Hid as [Hdig Hlen]. split.
  - intros f H Hl Hd. apply consume_some in H as (p' & E & Em & _).
    rewrite <- Em in G.
    assert (Nu : exec userMentionMatcher (mentionText [HASH] id) = None).
    { apply (exec_mention_none KUser). intros C.
      apply (@mention_unique KChannel KUser [HASH] id eq_refl Hdig) in C
        as [[T|T] _]; discriminate. }
    pose proof (@exec_lone KChannel [HASH] id eq_refl (conj Hdig Hlen)) as X.
    simpl matcher in X.
    unfold cleanContent. rewrite E.
    change (mentionText [HASH] id) with (LT :: HASH :: id ++ [GT]) at 1.
    cbn [fst].
    change (LT :: HASH :: id ++ [GT]) with (mentionText [HASH] id).
    rewrite (cleanUsers_done _ _ _ Nu). cbn [bind].
    rewrite cleanChannels_S, X, G. cbn [whole group1].
    subst f. rewrite replace_whole by exact Hd.
    rewrite cleanChannels_done
      by (apply (exec_mention_none KChannel), plain_no_mention, Hl).
    cbn [bind].
    rewrite cleanRoles_done
      by (apply (exec_mention_none KRole), plain_no_mention, Hl).
    reflexivity.
  - intros f H Hl Hd. apply consume_some in H as (p' & E & Em & _).
    rewrite <- Em in G.
    assert (Nu : exec userMentionMatcher (mentionText [AT; AMP] id) = None).
    { apply (exec_mention_none KUser). intros C.
      apply (@mention_unique KRole KUser [AT; AMP] id eq_refl Hdig) in C
        as [[T|T] _]; discriminate. }
    assert (Nc : exec channelMentionMatcher (mentionText [AT; AMP] id)
                 = None).
    { apply (exec_mention_none KChannel). intros C.
      apply (@mention_unique KRole KChannel [AT; AMP] id eq_refl Hdig) in C
        as [T _]; discriminate. }
    pose proof (@exec_lone KRole [AT; AMP] id eq_refl (conj Hdig Hlen)) as X.
    simpl matcher in X.
    unfold cleanContent. rewrite E.
    change (mentionText [AT; AMP] id) with (LT :: AT :: AMP :: id ++ [GT])
      at 1.
    cbn [fst].
    change (LT :: AT :: AMP :: id ++ [GT]) with (mentionText [AT; AMP] id).
    rewrite (cleanUsers_done _ _ _ Nu). cbn [bind].
    rewrite (cleanChannels_done _ _ _ Nc). cbn [bind].
    rewrite cleanRoles_S, X, G. cbn [whole group1].
    subst f. rewrite replace_whole by exact Hd.
    rewrite cleanRoles_done
      by (apply (exec_mention_none KRole), plain_no_mention, Hl).
    reflexivity.
Qed.

Lemma lone_channel_or_role_mention_cleaned_witness :
  fst (cleanContent 1 false
         (Sample.inGuild Sample.guild2 [lit "<#111111111111111111>"]))
  = Normal (Some (lit "#general")) /\
  fst (cleanContent 1 false
         (Sample.inGuild Sample.guild2 [lit "<@&222222222222222222>"]))
  = Normal (Some (lit "@deleted-role")).
Proof.
  split.
  - destruct (@lone_channel_or_role_mention_cleaned 0 false
                (Sample.inGuild Sample.guild2 [lit "<#111111111111111111>"])
                Sample.guild2 (lit "111111111111111111") eq_refl)
      as [H _]; [split; [reflexivity | simpl; lia]|].
    apply H; try reflexivity; vm_compute; intuition discriminate.
  - destruct (@lone_channel_or_role_mention_cleaned 0 false
                (Sample.inGuild Sample.guild2 [lit "<@&222222222222222222>"])
                Sample.guild2 (lit "222222222222222222") eq_refl)
      as [_ H]; [split; [reflexivity | simpl; lia]|].
    apply H; try reflexivity; vm_compute; intuition discriminate.
Defined.

(** X18: in a private channel whose cached usernames hold neither [<] nor
    [$], are not empty and do not begin with [&], [cleanContent] on a
    non-empty string without channel and role mentions ends normally as soon
    as the fuel reaches the number of [<] in the string, and its result holds
    no mention of any kind. *)
Theorem cleanContent_private_user_mentions (c : bool) (p : ArgParser)
        (s : jsstring) (fuel : nat) :
  guild (msg p) = None -> safeUsers (users (bot p)) = true ->
  fst (consume c p) = Some s -> s <> [] ->
  ~ contains KChannel s -> ~ contains KRole s -> countLT s <= fuel ->
  exists r,
    fst (cleanContent fuel c p) = Normal (Some r) /\
    forall k, exec (matcher k) r = None /\ ~ contains k r.
Proof.
  intros G Hu H Hs Hc Hr Hf.
  apply consume_some in H as (p' & E & Em & Eb).
  rewrite <- Em in G. rewrite <- Eb in Hu.
  destruct (@rewriteLoop_ends KUser
              (fun id => Normal (userReplacement p' id))
              (fun k' => k' = KChannel \/ k' = KRole))
    with (fuel := fuel) (a := s) as (a1 & R1 & U1 & CR1 & _).
  { intros id. unfold userReplacement. rewrite G.
    destruct (get (users (bot p')) id) as [u|] eqn:Eg; simpl.
    - pose proof (@get_forallb _ (fun u => safeUserName (username u))
                    _ _ _ Hu Eg) as Su.
      apply andb_true_iff in Su as [Hp Hh].
      exists AT, (username u). repeat split; auto.
      intros k' [-> | ->]; [apply cannotComplete_at_channel|].
      destruct (username u) as [|y n]; [discriminate|].
      apply cannotComplete_at_role. intros ->. discriminate.
    - exists AT, (lit "deleted-user"). repeat split; auto.
      intros k' [-> | ->]; [apply cannotComplete_at_channel|].
      apply cannotComplete_at_role. discriminate. }
  { exact Hf. }
  { intros k' [-> | ->]; assumption. }
  simpl matcher in R1. rewrite <- cleanUsers_loop in R1.
  assert (Clean : forall k, ~ contains k a1)
    by (intros [ | | ]; auto).
  exists (cleanEveryoneHere a1). split.
  - apply (@cleanContent_after_loops fuel c p p' s a1 E Hs R1 Clean).
  - intros k. split; [apply exec_mention_none|];
      apply cleanEveryoneHere_clean, Clean.
Qed.

Lemma cleanContent_private_user_mentions_witness :
  exists r,
    fst (cleanContent 2 true
           (Sample.direct [lit "<@123456789012345678>";
                           lit "<@!111111111111111111>"]))
    = Normal (Some r) /\
    forall k, exec (matcher k) r = None /\ ~ contains k r.
Proof.
  apply (@cleanContent_private_user_mentions true
           (Sample.direct [lit "<@123456789012345678>";
                           lit "<@!111111111111111111>"])
           (join [SPACE] [lit "<@123456789012345678>";
                          lit "<@!111111111111111111>"])
           2).
  - reflexivity.
  - reflexivity.
  - reflexivity.
  - discriminate.
  - apply (exec_mention_none KChannel). vm_compute. reflexivity.
  - apply (exec_mention_none KRole). vm_compute. reflexivity.
  - vm_compute. lia.
Defined.

Lemma removelast_remove {A} (l : list A) :
  firstn (length l - 1) l ++ skipn (S (length l - 1)) l = removelast l.
Proof.
  destruct l as [|x l]; [reflexivity|].
  rewrite skipn_all2 by (simpl; lia). rewrite app_nil_r.
  rewrite removelast_firstn_len. f_equal. simpl. lia.
Qed.

(** X19: at the two ends, [drop(0)] leaves the list that
    [nextArgument(false)] leaves, and [drop(-1)] removes the last token. *)
Theorem drop_at_the_ends (p : ArgParser) :
  args (drop 0 p) = args (snd (nextArgument false p)) /\
  args (drop (-1) p) = removelast (args p).
Proof.
  unfold nextArgument. rewrite consume_args.
  change (args (drop 0 p)) with (snd (splice (args p) 0 (Some 1%Z))).
  change (args (drop (-1) p)) with (snd (splice (args p) (-1) (Some 1%Z))).
  rewrite !splice_one. destruct (args p) as [|x l]; [split; reflexivity|].
  set (n := Z.of_nat (length (x :: l))).
  assert (Hn : (1 <= n)%Z) by (unfold n; simpl length; lia).
  destruct (Z.leb_spec n 0); [lia|].
  destruct (Z.leb_spec n (-1)); [lia|].
  change (0 <=? 0)%Z with true. change (0 <=? -1)%Z with false. cbv iota.
  destruct (Z.leb_spec (- n) (-1)); [|lia].
  split; [reflexivity|].
  replace (Z.to_nat (n + -1)) with (length (x :: l) - 1) by (unfold n; lia).
  apply removelast_remove.
Qed.

End CleanContentMore.

(** ** Rewriting with the names the call inserts *)

Section RewritingCount.

Lemma getSubstitution_noPattern (m b a r : jsstring) :
  noPattern r = true -> getSubstitution m b a r = r.
Proof.
  induction r as [|c r IH]; [reflexivity|].
  intros H. simpl in H. apply andb_true_iff in H as [H1 H2].
  specialize (IH H2). simpl.
  destruct (c =? DOLLAR)%N; [|f_equal; exact IH].
  destruct r as [|d r']; [reflexivity|].
  simpl in H1. apply negb_true_iff in H1.
  apply orb_false_iff in H1 as [H1 Hq].
  apply orb_false_iff in H1 as [H1 Hb].
  apply orb_false_iff in H1 as [Hd Ha].
  rewrite Hd, Ha, Hb, Hq. f_equal. exact IH.
Qed.

Lemma replace_occurs_np (s pat repl pre0 post0 : jsstring) :
  s = pre0 ++ pat ++ post0 -> noPattern repl = true ->
  exists pre post,
    s = pre ++ pat ++ post /\ replace s pat repl = pre ++ repl ++ post.
Proof.
  intros -> Hr. unfold replace.
  destruct (indexOf_occurs pat pre0 post0) as (i & E & _). rewrite E.
  destruct (indexOf_split _ _ E) as [H1 H2].
  exists (firstn i (pre0 ++ pat ++ post0)),
         (skipn (i + length pat) (pre0 ++ pat ++ post0)).
  split; [exact H1|]. rewrite getSubstitution_noPattern by exact Hr.
  reflexivity.
Qed.

Lemma mentions_contains (k : kind) (id s : jsstring) :
  mentions k id s -> contains k s.
Proof.
  intros (pre & tag & post & Ht & Hid & E). exists pre, tag, id, post. auto.
Qed.

Lemma contains_mentions (k : kind) (s : jsstring) :
  contains k s -> exists id, mentions k id s.
Proof.
  intros (pre & tag & ds & post & Ht & Hid & E).
  exists ds, pre, tag, post. auto.
Qed.

Lemma mentions_cons (k : kind) (id : jsstring) (c : code_unit)
      (s : jsstring) :
  mentions k id (c :: s) <-> startsId k id (c :: s) \/ mentions k id s.
Proof.
  split.
  - intros ([|x pre] & tag & post & Ht & Hid & E).
    + left. exists tag, post. auto.
    + right. injection E as -> ->. exists pre, tag, post. auto.
  - intros [(tag & post & Ht & Hid & E) | (pre & tag & post & Ht & Hid & ->)].
    + exists [], tag, post. auto.
    + exists (c :: pre), tag, post. auto.
Qed.

Lemma mentions_app_r (k : kind) (id pre s : jsstring) :
  mentions k id s -> mentions k id (pre ++ s).
Proof.
  induction pre as [|c pre IH]; intros H; [exact H|].
  simpl. apply mentions_cons. right; auto.
Qed.

Lemma startsId_LT (k : kind) (id : jsstring) (c : code_unit)
      (t : jsstring) :
  startsId k id (c :: t) -> c = LT.
Proof.
  intros (tag & post & _ & _ & E). injection E as -> _. reflexivity.
Qed.

Lemma mentions_plain_app (k : kind) (id r post : jsstring) :
  ~ In LT r -> mentions k id (r ++ post) -> mentions k id post.
Proof.
  induction r as [|c r IH]; intros Hr H; [exact H|].
  simpl in H. apply mentions_cons in H as [H|H].
  - apply startsId_LT in H. simpl in Hr. tauto.
  - apply IH; [simpl in Hr; tauto | exact H].
Qed.

(** A mention that begins before a replacement text lies before it. *)
Lemma startsId_local (k : kind) (id q n post : jsstring) (c0 : code_unit) :
  startsId k id (q ++ (c0 :: n) ++ post) -> q <> [] ->
  c0 = AT \/ c0 = HASH -> cannotComplete k (c0 :: n) ->
  forall u, startsId k id (q ++ u).
Proof.
  intros (tag & post' & Ht & Hid & E) Hq Hc0 Hcc u.
  apply app_eq_app in E as [l [[-> E] | [E1 E2]]].
  - rewrite <- app_assoc. exists tag, (l ++ u); auto.
  - destruct l as [|c l'].
    + rewrite app_nil_r in E1. subst q. exists tag, u; auto.
    + exfalso. injection E2 as <- E2.
      destruct q as [|y q0]; [congruence|].
      unfold mentionText in E1. injection E1 as <- E1.
      destruct q0 as [|z q0'].
      * simpl in E1. apply (Hcc post). exists tag, id, post'.
        split; [exact Ht|]. split; [exact Hid|].
        unfold mentionText. simpl. f_equal.
        rewrite E1. simpl. f_equal. exact E2.
      * assert (T : In c0 (tl (tag ++ id ++ [GT])))
          by (rewrite E1; simpl; apply in_or_app; right; left; reflexivity).
        apply (@mention_tail_chars k tag id c0 Ht Hid) in T. tauto.
Qed.

(** A replacement that can complete no mention brings no mention about:
    every mention of the new string was one of the old string. *)
Lemma replace_no_new_mention (k : kind) (id pre M n post : jsstring)
      (c0 : code_unit) :
  c0 = AT \/ c0 = HASH -> ~ In LT n -> cannotComplete k (c0 :: n) ->
  mentions k id (pre ++ (c0 :: n) ++ post) ->
  mentions k id (pre ++ M ++ post).
Proof.
  intros Hc0 Hn Hcc. induction pre as [|c pre IH]; intros C.
  - simpl. apply mentions_app_r.
    apply (@mentions_plain_app k id (c0 :: n)); [|exact C].
    simpl. intros [E|E]; [|tauto].
    destruct Hc0; subst c0; discriminate.
  - simpl in C. simpl. apply mentions_cons. apply mentions_cons in C as [C|C].
    + left. apply (@startsId_local k id (c :: pre) n post c0 C); auto.
      discriminate.
    + right. apply IH, C.
Qed.

Lemma cannotComplete_hash_channel (x : code_unit) (n : jsstring) :
  isDigit x = false -> cannotComplete KChannel (HASH :: x :: n).
Proof.
  intros Hx post (tag & ds & post' & Ht & Hid & E).
  destruct (isId_head Hid) as (d & ds' & -> & Hd).
  simpl in Ht; subst tag. injection E as E. congruence.
Qed.

Lemma cannotComplete_hash_role (n : jsstring) :
  cannotComplete KRole (HASH :: n).
Proof.
  intros post (tag & ds & post' & Ht & _ & E).
  simpl in Ht; subst tag; discriminate.
Qed.

(** The sign that precedes the name inserted for a mention of each kind. *)
Lemma safeName_cannotComplete (k k' : kind) (n : jsstring) :
  safeName k n = true ->
  ~ In LT n /\ noPattern n = true /\
  cannotComplete k' (match k with KChannel => HASH | _ => AT end :: n).
Proof.
  unfold safeName. rewrite !andb_true_iff. intros [[Hl Hp] Hh].
  split; [|split; [exact Hp|]].
  - intros C. apply (proj1 (forallb_forall _ n) Hl) in C. discriminate.
  - destruct n as [|x n]; [discriminate|].
    apply andb_true_iff in Hh as [Hd Hk]. apply negb_true_iff in Hd.
    destruct k, k';
      try apply cannotComplete_at_channel;
      try apply cannotComplete_hash_user;
      try apply cannotComplete_hash_role;
      try (apply cannotComplete_hash_channel; exact Hd);
      apply negb_true_iff, orb_false_iff in Hk as [Hb Ha];
      try (apply cannotComplete_at_user;
           [exact Hd | intros ->; discriminate]);
      apply cannotComplete_at_role; intros ->; discriminate.
Qed.

Lemma noPattern_sign (c0 : code_unit) (n : jsstring) :
  c0 = AT \/ c0 = HASH -> noPattern n = true -> noPattern (c0 :: n) = true.
Proof.
  intros [-> | ->] H; simpl; exact H.
Qed.

Lemma rewrite_step_np (k : kind) (a t : jsstring) (m : matchResult) :
  exec (matcher k) a = Some m -> ~ In LT t -> noPattern t = true ->
  exists pre post,
    a = pre ++ whole m ++ post /\
    replace a (whole m) t = pre ++ t ++ post /\
    S (countLT (replace a (whole m) t)) = countLT a /\
    mentions k (group1 m) a.
Proof.
  intros E Ht1 Ht2.
  apply exec_mention_some in E
    as (pre0 & tag & ds & post0 & Htag & Hid & Ea & -> & _).
  simpl whole. simpl group1.
  destruct (@replace_occurs_np a (mentionText tag ds) t pre0 post0 Ea Ht2)
    as (pre & post & E1 & E2).
  exists pre, post. split; [exact E1|]. split; [exact E2|].
  split; [|exists pre0, tag, post0; auto].
  rewrite E2.
  replace (countLT a) with (countLT (pre ++ mentionText tag ds ++ post))
    by (rewrite <- E1; reflexivity).
  rewrite !countLT_app.
  rewrite (@countLT_mention k tag ds Htag Hid), (@countLT_plain t Ht1). lia.
Qed.

Section LoopCount.

Variable k : kind.
Variable fmt : jsstring -> completion jsstring.
Variable s0 : jsstring.

Hypothesis fmt_safe :
  forall id, mentions k id s0 ->
    exists c0 n,
      fmt id = Normal (c0 :: n) /\ (c0 = AT \/ c0 = HASH) /\
      ~ In LT n /\ noPattern n = true /\
      forall k', cannotComplete k' (c0 :: n).

(** The loop makes exactly [n] replacements, one for each [<] that is gone
    at the end; its result holds no mention of kind [k], and no mention that
    the string did not hold before. *)
Lemma rewriteLoop_counts (m : nat) (a : jsstring) :
  countLT a = m ->
  (forall k' id, mentions k' id a -> mentions k' id s0) ->
  exists r n,
    n + countLT r = countLT a /\
    (forall fuel, n <= fuel -> rewriteLoop (matcher k) fmt fuel a = Normal r) /\
    (forall fuel, fuel < n -> rewriteLoop (matcher k) fmt fuel a = Running) /\
    ~ contains k r /\
    (forall k' id, mentions k' id r -> mentions k' id a).
Proof.
  revert a. induction m as [|m IH]; intros a Hm Ha.
  - destruct (exec (matcher k) a) as [mt|] eqn:E.
    + exfalso.
      assert (Hg : mentions k (group1 mt) a).
      { apply exec_mention_some in E
          as (pre0 & tag & ds & post0 & Htag & Hid & Ea & -> & _).
        exists pre0, tag, post0. auto. }
      destruct (fmt_safe (Ha _ _ Hg)) as (c0 & n & _ & Hc0 & Hn & Hp & _).
      destruct (@rewrite_step_np k a (c0 :: n) mt E) as (_ & _ & _ & _ & C & _).
      * simpl. intros [F|F]; [destruct Hc0; subst; discriminate | tauto].
      * apply noPattern_sign; assumption.
      * lia.
    + exists a, 0. split; [reflexivity|].
      split; [intros [|fuel] _; simpl; rewrite E; reflexivity|].
      split; [intros fuel L; lia|].
      split; [apply exec_mention_none, E | auto].
  - destruct (exec (matcher k) a) as [mt|] eqn:E.
    + assert (Hg : mentions k (group1 mt) a).
      { pose proof E as E'. apply exec_mention_some in E'
          as (pre0 & tag & ds & post0 & Htag & Hid & Ea & -> & _).
        exists pre0, tag, post0. auto. }
      destruct (fmt_safe (Ha _ _ Hg)) as (c0 & n & Ef & Hc0 & Hn & Hp & Hcc).
      destruct (@rewrite_step_np k a (c0 :: n) mt E)
        as (pre & post & E1 & E2 & C & _).
      * simpl. intros [F|F]; [destruct Hc0; subst; discriminate | tauto].
      * apply noPattern_sign; assumption.
      * assert (New : forall k' id,
                   mentions k' id (replace a (whole mt) (c0 :: n)) ->
                   mentions k' id a).
        { intros k' id Hm'. rewrite E2 in Hm'. rewrite E1.
          apply (@replace_no_new_mention k' id pre (whole mt) n post c0);
            auto. }
        destruct (IH (replace a (whole mt) (c0 :: n)))
          as (r & n' & Hc & Hn' & Hr' & Hk & Hs).
        -- lia.
        -- intros k' id Hm'. apply Ha, New, Hm'.
        -- exists r, (S n'). split; [lia|].
           split; [|split; [|split]].
           ++ intros [|fuel] L; [lia|]. simpl. rewrite E, Ef. simpl.
              apply Hn'. lia.
           ++ intros [|fuel] L; simpl; rewrite E; [reflexivity|].
              rewrite Ef. simpl. apply Hr'. lia.
           ++ exact Hk.
           ++ intros k' id Hm'. apply New, Hs, Hm'.
    + exists a, 0. split; [reflexivity|].
      split; [intros [|fuel] _; simpl; rewrite E; reflexivity|].
      split; [intros fuel L; lia|].
      split; [apply exec_mention_none, E | auto].
Qed.

End LoopCount.

End RewritingCount.

Section CleanContentCount.

Lemma userReplacement_shape (p : ArgParser) (id : jsstring) :
  exists n, userReplacement p id = AT :: n.
Proof.
  unfold userReplacement.
  destruct (guild (msg p)) as [g|].
  - destruct (get (members g) id); simpl; eauto.
    exists (lit "deleted-user"). reflexivity.
  - destruct (get (users (bot p)) id); simpl; eauto.
    exists (lit "deleted-user"). reflexivity.
Qed.

Lemma clean_of_subset (k : kind) (a b : jsstring) :
  (forall k' id, mentions k' id b -> mentions k' id a) ->
  ~ contains k a -> ~ contains k b.
Proof.
  intros Sub H C. apply contains_mentions in C as [id C].
  apply H, (@mentions_contains k id a), Sub, C.
Qed.

(** The user loop on a string whose user mentions have safe names. *)
Lemma cleanUsers_counts (p : ArgParser) (s : jsstring) :
  (forall id, mentions KUser id s ->
              safeName KUser (tl (userReplacement p id)) = true) ->
  exists a1 n1,
    n1 + countLT a1 = countLT s /\
    (forall fuel, n1 <= fuel -> cleanUsers fuel p s = Normal a1) /\
    (forall fuel, fuel < n1 -> cleanUsers fuel p s = Running) /\
    ~ contains KUser a1 /\
    (forall k' id, mentions k' id a1 -> mentions k' id s).
Proof.
  intros H.
  destruct (@rewriteLoop_counts KUser
              (fun id => Normal (userReplacement p id)) s)
    with (m := countLT s) (a := s) as (r & n & R); auto.
  - intros id Hm. specialize (H id Hm).
    destruct (userReplacement_shape p id) as [n E]. rewrite E in H |- *.
    simpl tl in H. exists AT, n.
    split; [reflexivity|]. split; [auto|].
    destruct (@safeName_cannotComplete KUser KUser n H) as (Hl & Hp & _).
    split; [exact Hl|]. split; [exact Hp|].
    intros k'. apply (@safeName_cannotComplete KUser k' n H).
  - exists r, n. simpl matcher in R.
    destruct R as (R1 & R2 & R3 & R4 & R5).
    split; [exact R1|].
    split; [intros fuel L; rewrite cleanUsers_loop; apply R2, L|].
    split; [intros fuel L; rewrite cleanUsers_loop; apply R3, L|].
    auto.
Qed.

Lemma cleanChannels_counts (p : ArgParser) (g : Guild) (s : jsstring) :
  guild (msg p) = Some g ->
  (forall id channel,
      mentions KChannel id s -> get (channels g) id = Some channel ->
      safeName KChannel (channel_name channel) = true) ->
  exists a2 n2,
    n2 + countLT a2 = countLT s /\
    (forall fuel, n2 <= fuel -> cleanChannels fuel p s = Normal a2) /\
    (forall fuel, fuel < n2 -> cleanChannels fuel p s = Running) /\
    ~ contains KChannel a2 /\
    (forall k' id, mentions k' id a2 -> mentions k' id s).
Proof.
  intros G H.
  destruct (@rewriteLoop_counts KChannel
              (fun id => Normal match get (channels g) id with
                                | Some channel => HASH :: channel_name channel
                                | None => lit "#deleted-channel"
                                end) s)
    with (m := countLT s) (a := s) as (r & n & R); auto.
  - intros id Hm. destruct (get (channels g) id) as [ch|] eqn:Eg.
    + specialize (H id ch Hm Eg). exists HASH, (channel_name ch).
      split; [reflexivity|]. split; [auto|].
      destruct (@safeName_cannotComplete KChannel KUser _ H) as (Hl & Hp & _).
      split; [exact Hl|]. split; [exact Hp|].
      intros k'. apply (@safeName_cannotComplete KChannel k' _ H).
    + exists HASH, (lit "deleted-channel").
      assert (S : safeName KChannel (lit "deleted-channel") = true)
        by reflexivity.
      split; [reflexivity|]. split; [auto|].
      destruct (@safeName_cannotComplete KChannel KUser _ S) as (Hl & Hp & _).
      split; [exact Hl|]. split; [exact Hp|].
      intros k'. apply (@safeName_cannotComplete KChannel k' _ S).
  - exists r, n. simpl matcher in R.
    destruct R as (R1 & R2 & R3 & R4 & R5).
    split; [exact R1|].
    split; [intros fuel L; rewrite (cleanChannels_loop _ _ _ G);
            apply R2, L|].
    split; [intros fuel L; rewrite (cleanChannels_loop _ _ _ G);
            apply R3, L|].
    auto.
Qed.

Lemma cleanRoles_counts (p : ArgParser) (g : Guild) (s : jsstring) :
  guild (msg p) = Some g ->
  (forall id role,
      mentions KRole id s -> get (roles g) id = Some role ->
      safeName KRole (role_name role) = true) ->
  exists a3 n3,
    n3 + countLT a3 = countLT s /\
    (forall fuel, n3 <= fuel -> cleanRoles fuel p s = Normal a3) /\
    (forall fuel, fuel < n3 -> cleanRoles fuel p s = Running) /\
    ~ contains KRole a3 /\
    (forall k' id, mentions k' id a3 -> mentions k' id s).
Proof.
  intros G H.
  destruct (@rewriteLoop_counts KRole
              (fun id => Normal match get (roles g) id with
                                | Some role => AT :: role_name role
                                | None => lit "@deleted-role"
                                end) s)
    with (m := countLT s) (a := s) as (r & n & R); auto.
  - intros id Hm. destruct (get (roles g) id) as [ro|] eqn:Eg.
    + specialize (H id ro Hm Eg). exists AT, (role_name ro).
      split; [reflexivity|]. split; [auto|].
      destruct (@safeName_cannotComplete KRole KUser _ H) as (Hl & Hp & _).
      split; [exact Hl|]. split; [exact Hp|].
      intros k'. apply (@safeName_cannotComplete KRole k' _ H).
    + exists AT, (lit "deleted-role").
      assert (S : safeName KRole (lit "deleted-role") = true) by reflexivity.
      split; [reflexivity|]. split; [auto|].
      destruct (@safeName_cannotComplete KRole KUser _ S) as (Hl & Hp & _).
      split; [exact Hl|]. split; [exact Hp|].
      intros k'. apply (@safeName_cannotComplete KRole k' _ S).
  - exists r, n. simpl matcher in R.
    destruct R as (R1 & R2 & R3 & R4 & R5).
    split; [exact R1|].
    split; [intros fuel L; rewrite (cleanRoles_loop _ _ _ G); apply R2, L|].
    split; [intros fuel L; rewrite (cleanRoles_loop _ _ _ G); apply R3, L|].
    auto.
Qed.

(** C3 (amended): let the consumed string [s] be non-empty, let the name
    inserted for each mention of [s] hold no [<] and no replacement pattern,
    be non-empty and not begin with a digit (nor with [!] or [&] after [@]),
    and let the message have a guild or [s] hold no channel and no role
    mention.  Then the three loops end after [n1], [n2] and [n3]
    replacements, exactly one for each [<] that is gone, so at most as many
    in total as [s] holds [<]; [cleanContent] ends normally with any fuel
    that covers each loop; and the string it returns holds no user, channel
    or role mention. *)
Theorem cleanContent_removes_mentions (c : bool) (p : ArgParser)
        (s : jsstring) :
  consumedText c (args p) = Some s -> s <> [] -> safeCall p s ->
  exists n1 n2 n3 a1 a2 a3,
    n1 + n2 + n3 + countLT a3 = countLT s /\
    (forall fuel, cleanUsers fuel p s
                  = if n1 <=? fuel then Normal a1 else Running) /\
    (forall fuel, cleanChannels fuel p a1
                  = if n2 <=? fuel then Normal a2 else Running) /\
    (forall fuel, cleanRoles fuel p a2
                  = if n3 <=? fuel then Normal a3 else Running) /\
    (forall fuel,
        n1 <= fuel -> n2 <= fuel -> n3 <= fuel ->
        fst (cleanContent fuel c p)
        = Normal (Some (cleanEveryoneHere a3))) /\
    forall k,
      exec (matcher k) (cleanEveryoneHere a3) = None /\
      ~ contains k (cleanEveryoneHere a3).
Proof.
  intros H Hs [Su Sg].
  destruct (cleanUsers_counts p Su) as (a1 & n1 & C1 & U1 & U1' & K1 & M1).
  assert (Loops :
    exists n2 n3 a2 a3,
      n2 + n3 + countLT a3 = countLT a1 /\
      (forall fuel, n2 <= fuel -> cleanChannels fuel p a1 = Normal a2) /\
      (forall fuel, fuel < n2 -> cleanChannels fuel p a1 = Running) /\
      (forall fuel, n3 <= fuel -> cleanRoles fuel p a2 = Normal a3) /\
      (forall fuel, fuel < n3 -> cleanRoles fuel p a2 = Running) /\
      forall k, ~ contains k a3).
  { destruct (guild (msg p)) as [g|] eqn:G.
    - destruct Sg as [Sc Sr].
      destruct (@cleanChannels_counts p g a1 G)
        as (a2 & n2 & C2 & U2 & U2' & K2 & M2).
      { intros id ch Hm. apply Sc, M1, Hm. }
      destruct (@cleanRoles_counts p g a2 G)
        as (a3 & n3 & C3 & U3 & U3' & K3 & M3).
      { intros id ro Hm. apply Sr, M1, M2, Hm. }
      exists n2, n3, a2, a3. split; [lia|].
      repeat (split; [assumption|]).
      intros [ | | ].
      + apply (clean_of_subset M3), (clean_of_subset M2), K1.
      + apply (clean_of_subset M3), K2.
      + exact K3.
    - destruct Sg as [Sc Sr].
      assert (Kc : ~ contains KChannel a1) by (apply (clean_of_subset M1), Sc).
      assert (Kr : ~ contains KRole a1) by (apply (clean_of_subset M1), Sr).
      exists 0, 0, a1, a1. split; [reflexivity|].
      split; [intros fuel _; apply cleanChannels_done,
                (exec_mention_none KChannel), Kc|].
      split; [intros fuel L; lia|].
      split; [intros fuel _; apply cleanRoles_done,
                (exec_mention_none KRole), Kr|].
      split; [intros fuel L; lia|].
      intros [ | | ]; assumption. }
  destruct Loops as (n2 & n3 & a2 & a3 & C & U2 & U2' & U3 & U3' & K).
  exists n1, n2, n3, a1, a2, a3. split; [lia|].
  split; [intros fuel; destruct (Nat.leb_spec n1 fuel); auto|].
  split; [intros fuel; destruct (Nat.leb_spec n2 fuel); auto|].
  split; [intros fuel; destruct (Nat.leb_spec n3 fuel); auto|].
  split.
  - intros fuel L1 L2 L3. rewrite cleanContent_unfold, H.
    destruct s as [|x s']; [congruence|].
    rewrite (U1 fuel L1). simpl bind. rewrite (U2 fuel L2). simpl bind.
    rewrite (U3 fuel L3). reflexivity.
  - intros k. split; [apply exec_mention_none|];
      apply cleanEveryoneHere_clean, K.
Qed.

Lemma mentionIds_cons (k : kind) (c : code_unit) (s : jsstring) :
  mentionIds k (c :: s) =
  match run (matcher k) false (c :: s) with
  | Some (_, Some id) => [id]
  | _ => []
  end ++ mentionIds k s.
Proof. reflexivity. Qed.

(** Every mention of [s] is listed. *)
Lemma mentions_ids (k : kind) (id s : jsstring) :
  mentions k id s -> In id (mentionIds k s).
Proof.
  intros (pre & tag & post & Ht & Hid & ->).
  induction pre as [|c pre IH].
  - unfold mentionText. simpl app. rewrite mentionIds_cons.
    apply in_or_app. left.
    assert (R : run (matcher k) false (mentionText tag id ++ post)
                = Some (mentionText tag id, Some id))
      by (apply run_mention; exists tag, id, post; auto).
    unfold mentionText in R. simpl app in R. rewrite R. left. reflexivity.
  - simpl app. rewrite mentionIds_cons. apply in_or_app. right. exact IH.
Qed.

Lemma cleanContent_removes_mentions_witness :
  fst (cleanContent 1 true
         (Sample.inGuild Sample.guild4 Sample.threeMentions))
  = Normal (Some (lit "@JJ #general @Admin")) /\
  exists n1 n2 n3 a1 a2 a3,
    n1 + n2 + n3 + countLT a3
    = countLT (join [SPACE] Sample.threeMentions) /\
    (forall fuel,
        cleanUsers fuel (Sample.inGuild Sample.guild4 Sample.threeMentions)
                   (join [SPACE] Sample.threeMentions)
        = if n1 <=? fuel then Normal a1 else Running) /\
    (forall fuel,
        cleanChannels fuel
                      (Sample.inGuild Sample.guild4 Sample.threeMentions) a1
        = if n2 <=? fuel then Normal a2 else Running) /\
    (forall fuel,
        cleanRoles fuel (Sample.inGuild Sample.guild4 Sample.threeMentions)
                   a2
        = if n3 <=? fuel then Normal a3 else Running) /\
    (forall fuel,
        n1 <= fuel -> n2 <= fuel -> n3 <= fuel ->
        fst (cleanContent fuel true
               (Sample.inGuild Sample.guild4 Sample.threeMentions))
        = Normal (Some (cleanEveryoneHere a3))) /\
    forall k,
      exec (matcher k) (cleanEveryoneHere a3) = None /\
      ~ contains k (cleanEveryoneHere a3).
Proof.
  split; [reflexivity|].
  apply (@cleanContent_removes_mentions true
           (Sample.inGuild Sample.guild4 Sample.threeMentions)
           (join [SPACE] Sample.threeMentions)).
  - reflexivity.
  - discriminate.
  - split; [|split].
    + intros id Hm. apply mentions_ids in Hm. vm_compute in Hm.
      destruct Hm as [<-|[]]. reflexivity.
    + intros id ch Hm. apply mentions_ids in Hm. vm_compute in Hm.
      destruct Hm as [<-|[]]. intros [= <-]. reflexivity.
    + intros id ro Hm. apply mentions_ids in Hm. vm_compute in Hm.
      destruct Hm as [<-|[]]. intros [= <-]. reflexivity.
Defined.

End CleanContentCount.
